(** * Heap algorithms of EASTL ([heap.h]): a shallow embedding and its
      verification.

    The C++ templates work on a random-access range of a caller-owned
    container.  Here the container is a [list T], an iterator is the [Z]
    offset of an element in it, and a [Distance] is a [Z]: the operations
    of the header compute positions in the [difference_type] of the
    iterator, which holds twice the length of any range.  The internal
    [adjustHeap] can be called with a narrower [Distance]; [adjustHeap_in]
    is that call, with the wrap-around written out.  Dereferencing an iterator outside the container
    is undefined behaviour in C++; the embedding reports it as [Fault].
    Loops run under an iteration budget and report [Timeout] when it is
    exhausted, so that termination is a theorem and not an assumption.

    Every algorithm of the header comes twice, once with [operator<] and
    once with a [Compare] object; the two bodies are the same code, and
    the embedding has it once, with the comparison as the parameter
    [compare] ([compare a b] is [a < b]). *)

From Stdlib Require Import ZArith Lia.
From stdpp Require Import base list sorting.

Local Open Scope Z_scope.

Ltac Zify.zify_post_hook ::= Z.div_mod_to_equations.

(** ** Results of running a piece of code *)

Inductive res (A : Type) : Type :=
| Ok (a : A)
| Fault
| Timeout.
Arguments Ok {A} a.
Arguments Fault {A}.
Arguments Timeout {A}.

#[global] Instance res_ret : MRet res := fun _ a => Ok a.
#[global] Instance res_bind : MBind res := fun _ _ f m =>
  match m with
  | Ok a => f a
  | Fault => Fault
  | Timeout => Timeout
  end.

(** A loop: [step] runs the loop test and one pass of the body; it answers
    [inl s'] to go round again with state [s'] and [inr r] to leave the
    loop with [r].  [fuel] bounds the number of passes. *)
Fixpoint iter {S R : Type} (fuel : nat) (step : S → res (S + R)) (s : S) : res R :=
  match step s with
  | Ok (inr r) => Ok r
  | Ok (inl s') =>
      match fuel with
      | O => Timeout
      | Datatypes.S fuel' => iter fuel' step s'
      end
  | Fault => Fault
  | Timeout => Timeout
  end.

(** The loop started in state [s] returns [r], under some budget. *)
Definition runs {S R : Type} (step : S → res (S + R)) (s : S) (r : R) : Prop :=
  ∃ k, iter k step s = Ok r.

(** ** Strict weak orderings, as C++ requires of [operator<] and [Compare] *)

Class StrictWeakOrder {T : Type} (compare : T → T → bool) : Prop := {
  swo_irrefl : ∀ a, compare a a = false;
  swo_trans : ∀ a b c, compare a b = true → compare b c = true → compare a c = true;
  swo_incomp : ∀ a b c,
    compare a b = false → compare b a = false →
    compare b c = false → compare c b = false →
    compare a c = false
}.

Section Heap.
Context {T : Type} (compare : T → T → bool).

(** ** Container access *)

(** [*(it)] as an rvalue. *)
Definition rd (l : list T) (i : Z) : res T :=
  if i <? 0 then Fault
  else match l !! Z.to_nat i with
       | Some x => Ok x
       | None => Fault
       end.

(** [*(it) = x]. *)
Definition wr (l : list T) (i : Z) (x : T) : res (list T) :=
  if (0 <=? i) && (i <? Z.of_nat (length l)) then Ok (<[Z.to_nat i := x]> l)
  else Fault.

(** ** promoteHeap *)

(** One pass of the [for] loop of [promoteHeap]; the state is the container
    and [position].  [parentPosition] is recomputed from [position] before
    every test, as the loop header does. *)
Definition promoteHeap_step (first topPosition : Z) (value : T)
    (s : list T * Z) : res ((list T * Z) + (list T * Z)) :=
  let '(l, position) := s in
  let parentPosition := Z.shiftr (position - 1) 1 in
  if position >? topPosition then
    p ← rd l (first + parentPosition);
    if compare p value then
      p' ← rd l (first + parentPosition);
      l' ← wr l (first + position) p';
      Ok (inl (l', parentPosition))
    else Ok (inr (l, position))
  else Ok (inr (l, position)).

Definition promoteHeap (fuel : nat) (l : list T)
    (first topPosition position : Z) (value : T) : res (list T) :=
  '(l1, position1) ← iter fuel (promoteHeap_step first topPosition value) (l, position);
  wr l1 (first + position1) value.

(** ** adjustHeap *)

(** One pass of the [for] loop of [adjustHeap]; the state is the container,
    [position] and [childPosition]. *)
Definition adjustHeap_step (first heapSize : Z)
    (s : list T * Z * Z) : res ((list T * Z * Z) + (list T * Z * Z)) :=
  let '(l, position, childPosition) := s in
  if childPosition <? heapSize then
    c ← rd l (first + childPosition);
    c1 ← rd l (first + (childPosition - 1));
    let childPosition := if compare c c1 then childPosition - 1 else childPosition in
    x ← rd l (first + childPosition);
    l' ← wr l (first + position) x;
    Ok (inl (l', childPosition, 2 * childPosition + 2))
  else Ok (inr (l, position, childPosition)).

Definition adjustHeap (fuel : nat) (l : list T)
    (first topPosition heapSize position : Z) (value : T) : res (list T) :=
  let childPosition := 2 * position + 2 in
  '(l1, position1, childPosition1) ←
    iter fuel (adjustHeap_step first heapSize) (l, position, childPosition);
  '(l2, position2) ←
    (if childPosition1 =? heapSize then
       x ← rd l1 (first + (childPosition1 - 1));
       l2 ← wr l1 (first + position1) x;
       Ok (l2, childPosition1 - 1)
     else Ok (l1, position1));
  promoteHeap fuel l2 first topPosition position2 value.

(** ** adjustHeap called with a [Distance] of a given width

    [adjustHeap] is a template over [Distance] and computes [childPosition]
    in that type.  The operations of the header call it with the
    [difference_type] of the iterator, which holds twice the length of any
    range, and [adjustHeap] above is that call.  A direct caller chooses
    the type.  Below, [Distance] is a signed integer type of [bits] bits:
    the operands of [(2 * childPosition) + 2], [--childPosition] and
    [childPosition - 1] are promoted to [int], and a result that is stored
    in a [Distance] and that the type cannot hold wraps around.  The
    iterator arithmetic [first + (childPosition - 1)] is not stored in a
    [Distance] and does not wrap.  For a [Distance] as wide as [int] or
    wider there is no promotion and a result out of range is undefined
    behaviour; the definition wraps there too, and what is proved of it
    assumes that the type holds [2 * heapSize], where no result is out of
    range.  ([promoteHeap] only computes [(position - 1) >> 1], which
    every signed type that holds [position] holds as well.) *)

(** The value of a signed [Distance] of [bits] bits after [z] is stored in
    it. *)
Definition to_Distance (bits : Z) (z : Z) : Z :=
  (z + 2 ^ (bits - 1)) mod 2 ^ bits - 2 ^ (bits - 1).

Definition adjustHeap_step_in (bits : Z) (first heapSize : Z)
    (s : list T * Z * Z) : res ((list T * Z * Z) + (list T * Z * Z)) :=
  let '(l, position, childPosition) := s in
  if childPosition <? heapSize then
    c ← rd l (first + childPosition);
    c1 ← rd l (first + (childPosition - 1));
    let childPosition :=
      if compare c c1 then to_Distance bits (childPosition - 1) else childPosition in
    x ← rd l (first + childPosition);
    l' ← wr l (first + position) x;
    Ok (inl (l', childPosition, to_Distance bits (2 * childPosition + 2)))
  else Ok (inr (l, position, childPosition)).

Definition adjustHeap_in (bits : Z) (fuel : nat) (l : list T)
    (first topPosition heapSize position : Z) (value : T) : res (list T) :=
  let childPosition := to_Distance bits (2 * position + 2) in
  '(l1, position1, childPosition1) ←
    iter fuel (adjustHeap_step_in bits first heapSize) (l, position, childPosition);
  '(l2, position2) ←
    (if childPosition1 =? heapSize then
       x ← rd l1 (first + (childPosition1 - 1));
       l2 ← wr l1 (first + position1) x;
       Ok (l2, to_Distance bits (childPosition1 - 1))
     else Ok (l1, position1));
  promoteHeap fuel l2 first topPosition position2 value.

(** ** pushHeap, popHeap *)

Definition pushHeap (fuel : nat) (l : list T) (first last : Z) : res (list T) :=
  tempBottom ← rd l (last - 1);
  promoteHeap fuel l first 0 (last - first - 1) tempBottom.

Definition popHeap (fuel : nat) (l : list T) (first last : Z) : res (list T) :=
  tempBottom ← rd l (last - 1);
  x ← rd l first;
  l1 ← wr l (last - 1) x;
  adjustHeap fuel l1 first 0 (last - first - 1) 0 tempBottom.

(** ** makeHeap *)

(** One pass of the [do ... while] of [makeHeap]: the body runs before the
    test. *)
Definition makeHeap_step (fuel : nat) (first heapSize : Z)
    (s : list T * Z) : res ((list T * Z) + list T) :=
  let '(l, parentPosition) := s in
  let parentPosition := parentPosition - 1 in
  temp ← rd l (first + parentPosition);
  l' ← adjustHeap fuel l first parentPosition heapSize parentPosition temp;
  if negb (parentPosition =? 0) then Ok (inl (l', parentPosition))
  else Ok (inr l').

Definition makeHeap (fuel : nat) (l : list T) (first last : Z) : res (list T) :=
  let heapSize := last - first in
  if heapSize >=? 2 then
    let parentPosition := Z.shiftr (heapSize - 2) 1 + 1 in
    iter fuel (makeHeap_step fuel first heapSize) (l, parentPosition)
  else Ok l.

(** ** sortHeap *)

Definition sortHeap_step (fuel : nat) (first : Z)
    (s : list T * Z) : res ((list T * Z) + list T) :=
  let '(l, last) := s in
  if last - first >? 1 then
    l' ← popHeap fuel l first last;
    Ok (inl (l', last - 1))
  else Ok (inr l).

Definition sortHeap (fuel : nat) (l : list T) (first last : Z) : res (list T) :=
  iter fuel (sortHeap_step fuel first) (l, last).

(** ** removeHeap, changeHeap *)

Definition removeHeap (fuel : nat) (l : list T)
    (first heapSize position : Z) : res (list T) :=
  tempBottom ← rd l (first + heapSize - 1);
  x ← rd l (first + position);
  l1 ← wr l (first + heapSize - 1) x;
  adjustHeap fuel l1 first 0 (heapSize - 1) position tempBottom.

Definition changeHeap (fuel : nat) (l : list T)
    (first heapSize position : Z) : res (list T) :=
  l1 ← removeHeap fuel l first heapSize position;
  tempBottom ← rd l1 (first + heapSize - 1);
  promoteHeap fuel l1 first 0 (heapSize - 1) tempBottom.

(** ** isHeap_until, isHeap *)

(** One pass of the scan; the state is the advancing [first] (the current
    parent), [child] and the [int counter] that flips between 0 and 1. *)
Definition isHeap_until_step (l : list T) (last : Z)
    (s : Z * Z * Z) : res ((Z * Z * Z) + Z) :=
  let '(first, child, counter) := s in
  if child <? last then
    x ← rd l first;
    y ← rd l child;
    if compare x y then Ok (inr child)
    else Ok (inl (first + counter, child + 1, Z.lxor counter 1))
  else Ok (inr last).

Definition isHeap_until (fuel : nat) (l : list T) (first last : Z) : res Z :=
  iter fuel (isHeap_until_step l last) (first, first + 1, 0).

Definition isHeap (fuel : nat) (l : list T) (first last : Z) : res bool :=
  r ← isHeap_until fuel l first last;
  Ok (r =? last).

(** ** The alternative isHeap that the header keeps in a comment

    "To consider: The following may be a faster implementation for most
    cases."  The parameter [last] is decremented in place for a range of
    even length, and the test after the loop reads the decremented value. *)

(** One pass of its loop; the state is [parent] and [child].  The [||]
    reads [*(child + 1)] only when the first comparison is false. *)
Definition isHeap_alt_step (l : list T) (last : Z)
    (s : Z * Z) : res ((Z * Z) + (bool + Z * Z)) :=
  let '(parent, child) := s in
  if child <? last then
    x ← rd l parent;
    y ← rd l child;
    if compare x y then Ok (inr (inl false))
    else
      z ← rd l (child + 1);
      if compare x z then Ok (inr (inl false))
      else Ok (inl (parent + 1, child + 2))
  else Ok (inr (inr (parent, child))).

Definition isHeap_alt (fuel : nat) (l : list T) (first last : Z) : res bool :=
  let last := if Z.land (last - first) 1 =? 0 then last - 1 else last in
  r ← iter fuel (isHeap_alt_step l last) (first, first + 1);
  match r with
  | inl b => Ok b
  | inr (parent, child) =>
      if Z.land (last - first) 1 =? 0 then
        x ← rd l parent;
        y ← rd l child;
        if compare x y then Ok false else Ok true
      else Ok true
  end.

(** ** Ranges, the heap invariant and its variants *)

Implicit Types (l : list T) (first mid last top n p c i j position : Z) (v x y : T).

(** The container with the element at offset [i] replaced. *)
Definition upd l i x : list T := <[Z.to_nat i := x]> l.

(** The elements of the range [[first,last)], in order. *)
Definition region l first last : list T :=
  take (Z.to_nat (last - first)) (drop (Z.to_nat first) l).

(** [[first,last)] is a range of the container [l]. *)
Definition valid_range l first last : Prop :=
  0 ≤ first ∧ first ≤ last ∧ last ≤ Z.of_nat (length l).

(** The element at position [c] of the range starting at [first] is not of
    higher priority than its parent, at position [(c-1)/2]. *)
Definition ordered l first c : Prop :=
  ∀ x y, rd l (first + (c - 1) / 2) = Ok x → rd l (first + c) = Ok y →
         compare x y = false.

(** Every position below [n] whose parent is at or after [top] is
    [ordered]: the subtrees rooted at or after [top] are heaps. *)
Definition heap_from l first top n : Prop :=
  ∀ c, 0 < c < n → top ≤ (c - 1) / 2 → ordered l first c.

(** The heap invariant of the range [[first,last)]. *)
Definition heap_inv l first last : Prop := heap_from l first 0 (last - first).

(** A heap with a hole at position [p]: the element stored at [p] is
    ignored, and the children of [p] are compared with its parent. *)
Definition hole l first top n p : Prop :=
  (∀ c, 0 < c < n → top ≤ (c - 1) / 2 → c ≠ p → (c - 1) / 2 ≠ p →
        ordered l first c) ∧
  (∀ c x y, 0 < c < n → (c - 1) / 2 = p → 0 < p → top ≤ (p - 1) / 2 →
        rd l (first + (p - 1) / 2) = Ok x → rd l (first + c) = Ok y →
        compare x y = false).

(** [v] is not of lower priority than any child of position [p]. *)
Definition above l first n p v : Prop :=
  ∀ c y, 0 < c < n → (c - 1) / 2 = p → rd l (first + c) = Ok y →
         compare v y = false.

(** Position [q] lies in the subtree rooted at [top]. *)
Inductive desc top : Z → Prop :=
| desc_root : desc top top
| desc_child c : 0 < c → desc top ((c - 1) / 2) → desc top c.

(** The heap invariant of [[first,last)] in every comparison that does
    not involve the element at [position]: each parent/child pair without
    that position is ordered. *)
Definition heap_inv_except l first last position : Prop :=
  ∀ c, 0 < c < last - first → c ≠ position → (c - 1) / 2 ≠ position →
       ordered l first c.

(** No child of [position] is of higher priority than the parent of
    [position]. *)
Definition children_below_parent l first last position : Prop :=
  ∀ c x y, 0 < c < last - first → (c - 1) / 2 = position → 0 < position →
           rd l (first + (position - 1) / 2) = Ok x → rd l (first + c) = Ok y →
           compare x y = false.

(** The element at iterator [c] is of higher priority than the element at
    its parent position, [first + (c - first - 1) / 2]. *)
Definition violates l first c : Prop :=
  ∃ x y, rd l (first + (c - first - 1) / 2) = Ok x ∧ rd l c = Ok y ∧
         compare x y = true.

(** The run [r] returned a container of the same length that holds the
    elements of [[first,last)] of [l] in some order in [[first,last)], and
    the elements of [l] outside that range where they were. *)
Definition rearranges l first last (r : res (list T)) : Prop :=
  ∃ l', r = Ok l' ∧ length l' = length l ∧
        region l' first last ≡ₚ region l first last ∧
        (∀ j, ¬ (first ≤ j < last) → rd l' j = rd l j).

(** The first half of [adjustHeap], up to the call of [promoteHeap]: the
    loop and the step for a lone left child.  The hole at [p] ends at a
    position without children. *)
Definition adjustHeap_descent (fuel : nat) (l : list T) (first n p : Z)
    : res (list T * Z) :=
  '(l1, position1, childPosition1) ←
    iter fuel (adjustHeap_step first n) (l, p, 2 * p + 2);
  if childPosition1 =? n then
    x ← rd l1 (first + (childPosition1 - 1));
    l2 ← wr l1 (first + position1) x;
    Ok (l2, childPosition1 - 1)
  else Ok (l1, position1).

(** What the descent of [adjustHeap] from a hole at [q] followed by the
    promotion of [v] up to [top] comes to, when [v] is not of lower
    priority than the element [w] stored at [q] and the subtree of [q] is
    a heap (and elements of equal priority are equal): either the promotion
    stops below [q], and then storing [v] there gives the container with
    [v] at [q] (all the elements passed are equal to [v]); or it brings
    the hole back to [q]. *)
Definition settles first top v l (q : Z) (w : T) (l3 : list T) (q3 : Z) : Prop :=
  (∃ l4 q4, runs (promoteHeap_step first top v) (l3, q3) (l4, q4) ∧
            upd l4 (first + q4) v = upd l (first + q) v ∧
            compare w v = false) ∨
  (∃ g, ∀ r, runs (promoteHeap_step first top v) (upd l (first + q) g, q) r →
             runs (promoteHeap_step first top v) (l3, q3) r).

(** ** Ordered sequences, and the client loop that drains a heap *)

(** Lowest priority first: no element is of lower priority than an
    earlier one. *)
Definition ascending (s : list T) : Prop :=
  StronglySorted (λ a b, compare b a = false) s.

(** Highest priority first. *)
Definition descending (s : list T) : Prop :=
  StronglySorted (λ a b, compare a b = false) s.

(** [popHeap] called [n] times on the shrinking range, reading the
    extracted element from the back after each call (what a priority
    queue does with [popHeap] and [pop_back]).  Returns the container and
    the extracted elements in extraction order. *)
Fixpoint pop_n_times (fuel n : nat) (l : list T) (first last : Z)
    : res (list T * list T) :=
  match n with
  | O => Ok (l, [])
  | Datatypes.S n' =>
      l1 ← popHeap fuel l first last;
      x ← rd l1 (last - 1);
      '(l2, xs) ← pop_n_times fuel n' l1 first (last - 1);
      Ok (l2, x :: xs)
  end.

End Heap.

(** ** Facts about results, loops and container access *)

Lemma bind_Ok {A B : Type} (a : A) (f : A → res B) : Ok a ≫= f = f a.
Proof. reflexivity. Qed.

(** Total correctness of a loop: an invariant [I] kept by every pass, a
    measure [measure] that every pass decreases, and a postcondition [Q]
    established on exit.  With at least [measure s] passes allowed the loop
    returns, and the result satisfies [Q]. *)
Lemma iter_rule {S R : Type} (step : S → res (S + R))
    (I : S → Prop) (measure : S → nat) (Q : R → Prop) :
  (∀ s, I s →
     match step s with
     | Ok (inl s') => I s' ∧ (measure s' < measure s)%nat
     | Ok (inr r) => Q r
     | _ => False
     end) →
  ∀ fuel s, I s → (measure s ≤ fuel)%nat → ∃ r, iter fuel step s = Ok r ∧ Q r.
Proof.
  intros Hstep fuel. induction fuel as [|fuel IH]; intros s HI Hmeasure;
    specialize (Hstep s HI); simpl; destruct (step s) as [[s'|r]| |];
    try contradiction; eauto.
  - destruct Hstep; lia.
  - destruct Hstep. apply IH; [assumption | lia].
Qed.

Section Access.
Context {T : Type}.
Implicit Types (l : list T) (i j : Z) (x y : T).

Lemma rd_Ok l i x : rd l i = Ok x ↔ 0 ≤ i ∧ l !! Z.to_nat i = Some x.
Proof.
  unfold rd. destruct (Z.ltb_spec i 0).
  - split; [discriminate | lia].
  - destruct (l !! Z.to_nat i) eqn:E; split; intros H'; try discriminate.
    + injection H' as ->. auto.
    + destruct H' as [_ [= ->]]. reflexivity.
    + destruct H' as [_ [=]].
Qed.

Lemma rd_inb l i : 0 ≤ i < Z.of_nat (length l) → ∃ x, rd l i = Ok x.
Proof.
  intros Hi. destruct (lookup_lt_is_Some_2 l (Z.to_nat i)) as [x Hx]; [lia|].
  exists x. apply rd_Ok. split; [lia | assumption].
Qed.

Lemma rd_Ok_inb l i x : rd l i = Ok x → 0 ≤ i < Z.of_nat (length l).
Proof.
  intros [Hi Hx]%rd_Ok. apply lookup_lt_Some in Hx. lia.
Qed.

Lemma wr_inb l i x : 0 ≤ i < Z.of_nat (length l) → wr l i x = Ok (upd l i x).
Proof.
  intros Hi. unfold wr.
  destruct (Z.leb_spec 0 i); [|lia]. destruct (Z.ltb_spec i (Z.of_nat (length l))); [|lia].
  reflexivity.
Qed.

Lemma wr_Ok l i x l' : wr l i x = Ok l' → 0 ≤ i < Z.of_nat (length l) ∧ l' = upd l i x.
Proof.
  unfold wr. destruct (Z.leb_spec 0 i); destruct (Z.ltb_spec i (Z.of_nat (length l)));
    simpl; intros [=]; subst; split; [lia | reflexivity].
Qed.

Lemma length_upd l i x : length (upd l i x) = length l.
Proof. apply length_insert. Qed.

Lemma rd_upd_eq l i x : 0 ≤ i < Z.of_nat (length l) → rd (upd l i x) i = Ok x.
Proof.
  intros Hi. apply rd_Ok. split; [lia|]. apply list_lookup_insert_eq. lia.
Qed.

Lemma rd_upd_ne l i j x : 0 ≤ i → i ≠ j → rd (upd l i x) j = rd l j.
Proof.
  intros Hi Hne. unfold rd, upd. destruct (Z.ltb_spec j 0); [reflexivity|].
  rewrite list_lookup_insert_ne; [reflexivity | lia].
Qed.

Lemma upd_upd l i x y : upd (upd l i x) i y = upd l i y.
Proof. apply list_insert_insert_eq. Qed.

Lemma upd_same l i x : rd l i = Ok x → upd l i x = l.
Proof. intros [_ Hx]%rd_Ok. apply list_insert_id. assumption. Qed.

Lemma upd_comm l i j x y :
  0 ≤ i → 0 ≤ j → i ≠ j → upd (upd l i x) j y = upd (upd l j y) i x.
Proof. intros. apply list_insert_insert_ne. lia. Qed.

(** Two containers that answer every read alike are equal. *)
Lemma rd_ext l l' : (∀ i, rd l i = rd l' i) → l = l'.
Proof.
  intros H. apply list_eq. intros n. specialize (H (Z.of_nat n)).
  unfold rd in H. destruct (Z.ltb_spec (Z.of_nat n) 0); [lia|].
  rewrite Nat2Z.id in H.
  destruct (l !! n), (l' !! n); congruence.
Qed.

(** Exchanging the elements at two offsets permutes the container. *)
Lemma upd_swap_perm l i j x y :
  rd l i = Ok x → rd l j = Ok y → upd (upd l i y) j x ≡ₚ l.
Proof.
  intros [_ Hx]%rd_Ok [_ Hy]%rd_Ok. apply Permutation_insert_swap; assumption.
Qed.

(** Moving the element at [j] into a hole at [i] moves the hole to [j]:
    whatever fills the hole, the contents are the same. *)
Lemma upd_hole_perm l i j y v :
  0 ≤ i < Z.of_nat (length l) → rd l j = Ok y →
  upd (upd l i y) j v ≡ₚ upd l i v.
Proof.
  intros Hi Hj. destruct (decide (i = j)) as [->|Hne].
  - rewrite upd_upd. reflexivity.
  - rewrite <- (upd_upd l i v y).
    apply upd_swap_perm.
    + apply rd_upd_eq. assumption.
    + rewrite rd_upd_ne by lia. assumption.
Qed.

End Access.

(** ** Ranges of a container *)

Section Range.
Context {T : Type}.
Implicit Types (l : list T) (first mid last i j : Z) (x : T).

Lemma length_region l first last :
  valid_range l first last → length (region l first last) = Z.to_nat (last - first).
Proof.
  intros (? & ? & ?). unfold region. rewrite length_take, length_drop. lia.
Qed.

Lemma region_lookup l first last (k : nat) :
  0 ≤ first → (k < Z.to_nat (last - first))%nat →
  region l first last !! k = l !! (Z.to_nat first + k)%nat.
Proof.
  intros. unfold region. rewrite lookup_take_lt by lia. apply lookup_drop.
Qed.

Lemma elem_of_region l first last x :
  0 ≤ first → x ∈ region l first last ↔ ∃ j, first ≤ j < last ∧ rd l j = Ok x.
Proof.
  intros Hf. split.
  - intros [k Hk]%list_elem_of_lookup.
    assert (k < Z.to_nat (last - first))%nat as Hlt.
    { apply lookup_lt_Some in Hk. unfold region in Hk. rewrite length_take in Hk. lia. }
    rewrite region_lookup in Hk by lia.
    exists (first + Z.of_nat k). split; [lia|]. apply rd_Ok. split; [lia|].
    replace (Z.to_nat (first + Z.of_nat k)) with (Z.to_nat first + k)%nat by lia.
    assumption.
  - intros (j & Hj & [_ Hx]%rd_Ok). apply list_elem_of_lookup.
    exists (Z.to_nat (j - first)). rewrite region_lookup by lia.
    replace (Z.to_nat first + Z.to_nat (j - first))%nat with (Z.to_nat j) by lia.
    assumption.
Qed.

Lemma rd_eq_lookup l l' j :
  0 ≤ j → rd l' j = rd l j → l' !! Z.to_nat j = l !! Z.to_nat j.
Proof.
  intros Hj. unfold rd. destruct (Z.ltb_spec j 0); [lia|].
  destruct (l' !! Z.to_nat j), (l !! Z.to_nat j); congruence.
Qed.

Lemma region_ext l l' first last :
  0 ≤ first → (∀ j, first ≤ j < last → rd l' j = rd l j) →
  region l' first last = region l first last.
Proof.
  intros Hf H. apply list_eq. intros k.
  destruct (decide (k < Z.to_nat (last - first))%nat) as [Hk|Hk].
  - rewrite !region_lookup by lia.
    replace (Z.to_nat first + k)%nat with (Z.to_nat (first + Z.of_nat k)) by lia.
    apply rd_eq_lookup; [lia|]. apply H. lia.
  - unfold region. rewrite !lookup_take_ge by lia. reflexivity.
Qed.

Lemma region_split l first mid last :
  0 ≤ first → first ≤ mid ≤ last →
  region l first last = region l first mid ++ region l mid last.
Proof.
  intros Hf Hm. unfold region.
  replace (Z.to_nat (last - first))
    with (Z.to_nat (mid - first) + Z.to_nat (last - mid))%nat by lia.
  rewrite <- take_take_drop, drop_drop.
  replace (Z.to_nat first + Z.to_nat (mid - first))%nat with (Z.to_nat mid) by lia.
  reflexivity.
Qed.

Lemma region_single l i x : rd l i = Ok x → region l i (i + 1) = [x].
Proof.
  intros [Hi Hx]%rd_Ok. unfold region.
  replace (Z.to_nat (i + 1 - i)) with 1%nat by lia.
  rewrite (drop_S _ _ _ Hx). reflexivity.
Qed.

Lemma region_empty l first last : last ≤ first → region l first last = [].
Proof.
  intros H. unfold region. replace (Z.to_nat (last - first)) with 0%nat by lia.
  reflexivity.
Qed.

Lemma region_all l : region l 0 (Z.of_nat (length l)) = l.
Proof.
  unfold region. simpl. rewrite Z.sub_0_r, Nat2Z.id. apply firstn_all.
Qed.

Lemma region_snoc l first last x :
  0 ≤ first → first < last → rd l (last - 1) = Ok x →
  region l first last = region l first (last - 1) ++ [x].
Proof.
  intros Hf Hl Hx. rewrite (region_split l first (last - 1) last) by lia.
  rewrite <- (region_single l (last - 1) x Hx).
  replace (last - 1 + 1) with last by lia. reflexivity.
Qed.

Lemma region_cons l first last x :
  first < last → rd l first = Ok x →
  region l first last = x :: region l (first + 1) last.
Proof.
  intros Hl Hx. pose proof (rd_Ok_inb _ _ _ Hx).
  rewrite (region_split l first (first + 1) last) by lia.
  rewrite (region_single l first x Hx). reflexivity.
Qed.

(** A permutation of the container that leaves everything outside
    [[first,last)] in place permutes the range. *)
Lemma region_perm l l' first last :
  valid_range l first last → l' ≡ₚ l →
  (∀ j, ¬ (first ≤ j < last) → rd l' j = rd l j) →
  region l' first last ≡ₚ region l first last.
Proof.
  intros (Hf & Hfl & Hl) Hperm Hout.
  assert (Hlen : length l' = length l) by (rewrite Hperm; reflexivity).
  rewrite <- (region_all l), <- (region_all l') in Hperm. rewrite Hlen in Hperm.
  rewrite (region_split l 0 first), (region_split l first last) in Hperm by lia.
  rewrite (region_split l' 0 first), (region_split l' first last) in Hperm by lia.
  rewrite (region_ext l l' 0 first) in Hperm by (try lia; intros; apply Hout; lia).
  rewrite (region_ext l l' last) in Hperm by (try lia; intros; apply Hout; lia).
  apply (inj (app _)) in Hperm. apply (inj (λ k, k ++ _)) in Hperm. exact Hperm.
Qed.

End Range.

(** ** Shifts, and consequences of a strict weak ordering *)

Section Invariant.
Context {T : Type} (compare : T → T → bool).
Implicit Types (l : list T) (first top n p c : Z) (v x y : T).

Lemma shiftr_half z : Z.shiftr z 1 = z / 2.
Proof. rewrite Z.shiftr_div_pow2 by lia. reflexivity. Qed.

Context `{!StrictWeakOrder compare}.

Lemma swo_asym (a b : T) : compare a b = true → compare b a = false.
Proof.
  intros Hab. destruct (compare b a) eqn:Hba; [|reflexivity].
  pose proof (swo_trans a b a Hab Hba) as H'. rewrite swo_irrefl in H'. discriminate.
Qed.

(** "Not lower priority than" is transitive. *)
Lemma swo_nlt_trans (a b c : T) :
  compare a b = false → compare b c = false → compare a c = false.
Proof.
  intros Hab Hbc. destruct (compare a c) eqn:Hac; [|reflexivity].
  destruct (compare b a) eqn:Hba.
  { rewrite (swo_trans b a c Hba Hac) in Hbc. discriminate. }
  destruct (compare c b) eqn:Hcb.
  { rewrite (swo_trans a c b Hac Hcb) in Hab. discriminate. }
  rewrite (swo_incomp a b c Hab Hba Hbc Hcb) in Hac. discriminate.
Qed.

Lemma swo_lt_nlt (a b c : T) :
  compare a b = true → compare a c = false → compare b c = false.
Proof.
  intros Hab Hac. destruct (compare b c) eqn:Hbc; [|reflexivity].
  rewrite (swo_trans a b c Hab Hbc) in Hac. discriminate.
Qed.

End Invariant.

(** ** Moving the hole *)

Section Hole.
Context {T : Type} (compare : T → T → bool) `{!StrictWeakOrder compare}.
Implicit Types (l : list T) (first top n p q c : Z) (v x y : T).

Lemma desc_ge top q : 0 ≤ top → desc top q → top ≤ q.
Proof. intros Ht H. induction H; lia. Qed.

Lemma desc_parent top q : 0 ≤ top → desc top q → top < q → top ≤ (q - 1) / 2.
Proof.
  intros Ht H Hlt. destruct H as [|c Hc H]; [lia|].
  eapply desc_ge; eassumption.
Qed.

Lemma desc_zero q : 0 ≤ q → desc 0 q.
Proof.
  intros Hq. remember (Z.to_nat q) as k eqn:Hk.
  revert q Hq Hk. induction k as [k IH] using lt_wf_ind. intros q Hq ->.
  destruct (decide (q = 0)) as [->|Hne]; [constructor|].
  apply desc_child; [lia|]. apply (IH (Z.to_nat ((q - 1) / 2))); lia.
Qed.

(** The hole at [p] takes the element of its child [c], which is not of
    lower priority than the other child: the hole is now at [c]. *)
Lemma hole_down l first top n p c x :
  0 ≤ first → first + n ≤ Z.of_nat (length l) →
  hole compare l first top n p → 0 ≤ p →
  0 < c < n → (c - 1) / 2 = p →
  rd l (first + c) = Ok x →
  (∀ c' y, 0 < c' < n → (c' - 1) / 2 = p → c' ≠ c →
           rd l (first + c') = Ok y → compare x y = false) →
  hole compare (upd l (first + p) x) first top n c.
Proof.
  intros Hf Hn [Ha Hb] Hp Hc Hcp Hx Hmax. split.
  - intros d Hd Htd Hdc Hpd u w Hu Hw.
    destruct (decide (d = p)) as [->|Hdp].
    + rewrite rd_upd_ne in Hu by lia. rewrite rd_upd_eq in Hw by lia.
      injection Hw as <-. eapply (Hb c u x); eauto; lia.
    + rewrite rd_upd_ne in Hw by lia.
      destruct (decide ((d - 1) / 2 = p)) as [E|E].
      * rewrite E in Hu. rewrite rd_upd_eq in Hu by lia. injection Hu as <-.
        eapply Hmax; eauto.
      * rewrite rd_upd_ne in Hu by lia. eapply Ha; eauto.
  - intros d u w Hd Hdc Hc0 Htc Hu Hw.
    rewrite Hcp in Hu. rewrite rd_upd_eq in Hu by lia. injection Hu as <-.
    rewrite rd_upd_ne in Hw by lia.
    eapply (Ha d); [lia | lia | lia | lia | | exact Hw].
    rewrite Hdc. exact Hx.
Qed.

(** The parent of the hole at [q] is of lower priority than [v] and moves
    into the hole: the hole is now at the parent, and [v] is not of lower
    priority than its children. *)
Lemma hole_up l first top n q x v :
  0 ≤ first → first + n ≤ Z.of_nat (length l) →
  hole compare l first top n q → 0 < q < n → top ≤ (q - 1) / 2 →
  rd l (first + (q - 1) / 2) = Ok x → compare x v = true →
  above compare l first n q v →
  hole compare (upd l (first + q) x) first top n ((q - 1) / 2) ∧
  above compare (upd l (first + q) x) first n ((q - 1) / 2) v.
Proof.
  intros Hf Hn [Ha Hb] Hq Htq Hx Hxv Hv. split; [split|].
  - intros d Hd Htd Hne Hpd u w Hu Hw.
    assert (d ≠ q) by (intros ->; lia).
    rewrite rd_upd_ne in Hw by lia.
    destruct (decide ((d - 1) / 2 = q)) as [E|E].
    + rewrite E in Hu. rewrite rd_upd_eq in Hu by lia. injection Hu as <-.
      eapply (Hb d x w); eauto; lia.
    + rewrite rd_upd_ne in Hu by lia. eapply Ha; eauto.
  - intros d u w Hd Hdp Hp0 Htp Hu Hw.
    rewrite rd_upd_ne in Hu by lia.
    assert (Hux : compare u x = false).
    { eapply (Ha ((q - 1) / 2)); eauto; lia. }
    destruct (decide (d = q)) as [->|Hdq].
    + rewrite rd_upd_eq in Hw by lia. injection Hw as <-. exact Hux.
    + rewrite rd_upd_ne in Hw by lia.
      eapply (swo_nlt_trans compare); [exact Hux|].
      eapply (Ha d); [lia | lia | lia | lia | | exact Hw].
      rewrite Hdp. exact Hx.
  - intros d w Hd Hdp Hw.
    destruct (decide (d = q)) as [->|Hdq].
    + rewrite rd_upd_eq in Hw by lia. injection Hw as <-.
      apply (swo_asym compare). exact Hxv.
    + rewrite rd_upd_ne in Hw by lia.
      eapply (swo_lt_nlt compare); [exact Hxv|].
      eapply (Ha d); [lia | lia | lia | lia | | exact Hw].
      rewrite Hdp. exact Hx.
Qed.

(** Filling the hole with a value that fits between the parent and the
    children of the hole gives a heap. *)
Lemma hole_fill l first top n q v :
  0 ≤ first → first + n ≤ Z.of_nat (length l) →
  hole compare l first top n q → 0 ≤ q < n →
  above compare l first n q v →
  (∀ x, 0 < q → top ≤ (q - 1) / 2 →
        rd l (first + (q - 1) / 2) = Ok x → compare x v = false) →
  heap_from compare (upd l (first + q) v) first top n.
Proof.
  intros Hf Hn [Ha Hb] Hq Hv Hpv d Hd Htd u w Hu Hw.
  destruct (decide (d = q)) as [->|Hdq].
  - rewrite rd_upd_ne in Hu by lia. rewrite rd_upd_eq in Hw by lia.
    injection Hw as <-. eapply Hpv; eauto; lia.
  - rewrite rd_upd_ne in Hw by lia.
    destruct (decide ((d - 1) / 2 = q)) as [E|E].
    + rewrite E in Hu. rewrite rd_upd_eq in Hu by lia. injection Hu as <-.
      eapply Hv; eauto.
    + rewrite rd_upd_ne in Hu by lia. eapply Ha; eauto.
Qed.

End Hole.

(** ** Correctness of the two repositioning primitives *)

Section Sift.
Context {T : Type} (compare : T → T → bool) `{!StrictWeakOrder compare}.
Implicit Types (l : list T) (first top n p q c : Z) (v x y : T).

(** [promoteHeap] on a heap of [n] positions with a hole at [q], for a
    [value] that is not of lower priority than the children of the hole:
    the result is a heap holding [value] in place of the hole. *)
Lemma promoteHeap_correct fuel l first top n q v :
  0 ≤ first → first + n ≤ Z.of_nat (length l) → 0 ≤ top →
  desc top q → q < n →
  hole compare l first top n q → above compare l first n q v →
  (Z.to_nat q ≤ fuel)%nat →
  ∃ l', promoteHeap compare fuel l first top q v = Ok l' ∧
        heap_from compare l' first top n ∧
        l' ≡ₚ upd l (first + q) v ∧
        length l' = length l ∧
        (∀ j, ¬ (first + top ≤ j ≤ first + q) → rd l' j = rd l j).
Proof.
  intros Hf Hn Ht Hdesc Hqn Hhole Habove Hfuel.
  set (I := fun s : list T * Z =>
    let '(l1, q1) := s in
    length l1 = length l ∧ desc top q1 ∧ q1 ≤ q ∧
    hole compare l1 first top n q1 ∧ above compare l1 first n q1 v ∧
    upd l1 (first + q1) v ≡ₚ upd l (first + q) v ∧
    (∀ j, ¬ (first + top ≤ j ≤ first + q) → rd l1 j = rd l j)).
  set (Q := fun s : list T * Z =>
    I s ∧ let '(l1, q1) := s in
    ∀ x, 0 < q1 → top ≤ (q1 - 1) / 2 →
         rd l1 (first + (q1 - 1) / 2) = Ok x → compare x v = false).
  destruct (iter_rule (promoteHeap_step compare first top v) I
              (fun s => Z.to_nat (snd s)) Q) with (fuel := fuel) (s := (l, q))
    as [[l1 q1] [Hit [HI HQ]]].
  - intros [l1 q1] HI. pose proof HI as (Hlen & Hd & Hle & Hh & Hab & Hperm & Hout).
    pose proof (desc_ge _ _ Ht Hd) as Hge.
    unfold promoteHeap_step. rewrite shiftr_half.
    destruct (Z.gtb_spec q1 top) as [Hgt|Hngt].
    + pose proof (desc_parent _ _ Ht Hd Hgt) as Hpar.
      destruct (rd_inb l1 (first + (q1 - 1) / 2)) as [x Hx]; [lia|].
      rewrite Hx, bind_Ok. destruct (compare x v) eqn:Hxv.
      * rewrite bind_Ok, wr_inb, bind_Ok by lia.
        destruct (hole_up compare l1 first top n q1 x v) as [Hh' Hab'];
          try assumption; try lia.
        split; [|simpl; lia].
        split; [rewrite length_upd; assumption|].
        split; [inversion Hd; subst; [lia | assumption]|].
        split; [lia|]. split; [assumption|]. split; [assumption|]. split.
        -- rewrite <- Hperm. apply upd_hole_perm; [lia | assumption].
        -- intros j Hj. rewrite rd_upd_ne by lia. apply Hout. assumption.
      * split; [assumption|]. intros x' _ _ Hx'. congruence.
    + split; [assumption|]. intros x' ? ?. lia.
  - unfold I. split; [reflexivity|]. split; [assumption|]. split; [lia|].
    split; [assumption|]. split; [assumption|]. split; reflexivity.
  - simpl. lia.
  - destruct HI as (Hlen & Hd & Hle & Hh & Hab & Hperm & Hout).
    pose proof (desc_ge _ _ Ht Hd) as Hge.
    unfold promoteHeap. rewrite Hit, bind_Ok. rewrite wr_inb by lia.
    eexists. split; [reflexivity|]. split.
    { apply hole_fill; try assumption; lia. }
    split; [assumption|]. split; [rewrite length_upd; assumption|].
    intros j Hj. rewrite rd_upd_ne by lia. apply Hout. assumption.
Qed.

(** When the position is the top, or the parent is not of lower priority
    than [value], [promoteHeap] only stores [value]. *)
Lemma promoteHeap_stay fuel l first top q v :
  (q ≤ top ∨ ∃ x, rd l (first + (q - 1) / 2) = Ok x ∧ compare x v = false) →
  promoteHeap compare fuel l first top q v = wr l (first + q) v.
Proof.
  intros H. unfold promoteHeap.
  assert (Hstep : promoteHeap_step compare first top v (l, q) = Ok (inr (l, q))).
  { unfold promoteHeap_step. rewrite shiftr_half.
    destruct (Z.gtb_spec q top); [|reflexivity].
    destruct H as [H|(x & Hx & Hc)]; [lia|]. rewrite Hx, bind_Ok, Hc. reflexivity. }
  assert (Hit : iter fuel (promoteHeap_step compare first top v) (l, q) = Ok (l, q)).
  { destruct fuel; cbn [iter]; rewrite Hstep; reflexivity. }
  rewrite Hit. reflexivity.
Qed.

Lemma adjustHeap_unfold fuel l first top n p v :
  adjustHeap compare fuel l first top n p v =
  adjustHeap_descent compare fuel l first n p ≫= λ '(l2, q),
    promoteHeap compare fuel l2 first top q v.
Proof.
  unfold adjustHeap, adjustHeap_descent.
  destruct (iter fuel _ _) as [[[l1 q1] c1]| |]; reflexivity.
Qed.

Lemma adjustHeap_descent_correct fuel l first top n p :
  0 ≤ first → first + n ≤ Z.of_nat (length l) → 0 ≤ top →
  desc top p → p < n →
  hole compare l first top n p →
  (Z.to_nat n ≤ fuel)%nat →
  ∃ l2 q, adjustHeap_descent compare fuel l first n p = Ok (l2, q) ∧
          length l2 = length l ∧ desc top q ∧ p ≤ q < n ∧ n < 2 * q + 2 ∧
          hole compare l2 first top n q ∧
          (∀ v, upd l2 (first + q) v ≡ₚ upd l (first + p) v) ∧
          (∀ j, ¬ (first + p ≤ j < first + n) → rd l2 j = rd l j).
Proof.
  intros Hf Hn Ht Hdesc Hpn Hhole Hfuel.
  pose proof (desc_ge _ _ Ht Hdesc) as Hge.
  set (I := fun s : list T * Z * Z =>
    let '(l1, q1, c1) := s in
    length l1 = length l ∧ c1 = 2 * q1 + 2 ∧ desc top q1 ∧ p ≤ q1 < n ∧
    hole compare l1 first top n q1 ∧
    (∀ v, upd l1 (first + q1) v ≡ₚ upd l (first + p) v) ∧
    (∀ j, ¬ (first + p ≤ j < first + n) → rd l1 j = rd l j)).
  set (Q := fun s : list T * Z * Z => I s ∧ n ≤ snd s).
  destruct (iter_rule (adjustHeap_step compare first n) I
              (fun s => Z.to_nat (n - snd s)) Q) with (fuel := fuel) (s := (l, p, 2 * p + 2))
    as [[[l1 q1] c1] [Hit [HI HQ]]].
  - intros [[l1 q1] c1] HI.
    pose proof HI as (Hlen & -> & Hd & Hq & Hh & Hperm & Hout).
    unfold adjustHeap_step.
    destruct (Z.ltb_spec (2 * q1 + 2) n) as [Hlt|Hnlt]; [|split; [assumption | simpl; lia]].
    destruct (rd_inb l1 (first + (2 * q1 + 2))) as [cr Hcr]; [lia|].
    destruct (rd_inb l1 (first + (2 * q1 + 2 - 1))) as [cl Hcl]; [lia|].
    rewrite Hcr, bind_Ok, Hcl, bind_Ok.
    assert (Hmove : ∀ c x, (c - 1) / 2 = q1 → 0 < c < n →
      rd l1 (first + c) = Ok x →
      (∀ c' y, 0 < c' < n → (c' - 1) / 2 = q1 → c' ≠ c →
               rd l1 (first + c') = Ok y → compare x y = false) →
      I (upd l1 (first + q1) x, c, 2 * c + 2)).
    { intros c x Hc Hcn Hx Hmax.
      split; [rewrite length_upd; assumption|]. split; [reflexivity|].
      split; [apply desc_child; [lia | rewrite Hc; assumption]|].
      split; [lia|]. split; [apply hole_down; try assumption; lia|]. split.
      - intros v. rewrite <- Hperm. apply upd_hole_perm; [lia | assumption].
      - intros j Hj. rewrite rd_upd_ne by lia. apply Hout. assumption. }
    destruct (compare cr cl) eqn:Hcmp.
    + rewrite Hcl, bind_Ok, wr_inb, bind_Ok by lia.
      split; [|simpl; lia]. apply Hmove; [lia | lia | assumption |].
      intros c' y Hc' Hpc' Hne Hy.
      replace c' with (2 * q1 + 2) in Hy by lia.
      rewrite Hcr in Hy. injection Hy as <-. apply (swo_asym compare). assumption.
    + rewrite Hcr, bind_Ok, wr_inb, bind_Ok by lia.
      split; [|simpl; lia]. apply Hmove; [lia | lia | assumption |].
      intros c' y Hc' Hpc' Hne Hy.
      replace (first + c') with (first + (2 * q1 + 2 - 1)) in Hy by lia.
      rewrite Hcl in Hy. injection Hy as <-. assumption.
  - unfold I. split; [reflexivity|]. split; [reflexivity|]. split; [assumption|].
    split; [lia|]. split; [assumption|]. split; reflexivity.
  - simpl. lia.
  - destruct HI as (Hlen & -> & Hd & Hq & Hh & Hperm & Hout). simpl in HQ.
    unfold adjustHeap_descent. rewrite Hit, bind_Ok.
    destruct (Z.eqb_spec (2 * q1 + 2) n) as [Heq|Hne].
    + destruct (rd_inb l1 (first + (2 * q1 + 2 - 1))) as [x Hx]; [lia|].
      rewrite Hx, bind_Ok, wr_inb, bind_Ok by lia.
      eexists _, _. split; [reflexivity|].
      split; [rewrite length_upd; assumption|].
      split; [apply desc_child; [lia|]; replace ((2 * q1 + 2 - 1 - 1) / 2) with q1 by lia; assumption|].
      split; [lia|]. split; [lia|]. split.
      { apply hole_down; try assumption; lia. }
      split.
      * intros v. rewrite <- Hperm. apply upd_hole_perm; [lia | assumption].
      * intros j Hj. rewrite rd_upd_ne by lia. apply Hout. assumption.
    + eexists _, _. split; [reflexivity|]. repeat (split; [assumption || lia|]).
      assumption.
Qed.

(** [adjustHeap] on a heap of [n] positions with a hole at [p]: the result
    is a heap holding [value] in place of the hole. *)
Lemma adjustHeap_correct fuel l first top n p v :
  0 ≤ first → first + n ≤ Z.of_nat (length l) → 0 ≤ top →
  desc top p → p < n →
  hole compare l first top n p →
  (Z.to_nat n ≤ fuel)%nat →
  ∃ l', adjustHeap compare fuel l first top n p v = Ok l' ∧
        heap_from compare l' first top n ∧
        l' ≡ₚ upd l (first + p) v ∧
        length l' = length l ∧
        (∀ j, ¬ (first + top ≤ j < first + n) → rd l' j = rd l j).
Proof.
  intros Hf Hn Ht Hdesc Hpn Hhole Hfuel.
  pose proof (desc_ge _ _ Ht Hdesc) as Hge.
  destruct (adjustHeap_descent_correct fuel l first top n p)
    as (l2 & q & Hdown & Hlen & Hd & Hq & Hleaf & Hh & Hperm & Hout); try assumption.
  destruct (promoteHeap_correct fuel l2 first top n q v)
    as (l' & Hup & Hheap & Hperm' & Hlen' & Hout'); try assumption; try lia.
  { intros c y Hc Hpc. lia. }
  exists l'. rewrite adjustHeap_unfold, Hdown, bind_Ok.
  split; [assumption|]. split; [assumption|].
  split; [rewrite Hperm'; apply Hperm|]. split; [congruence|].
  intros j Hj. rewrite Hout' by lia. apply Hout. lia.
Qed.

(** When the vacated position has no child below [heapSize], [adjustHeap]
    only promotes. *)
Lemma adjustHeap_no_child fuel l first top n p v :
  n < 2 * p + 2 →
  adjustHeap compare fuel l first top n p v =
  promoteHeap compare fuel l first top p v.
Proof.
  intros Hp. rewrite adjustHeap_unfold. unfold adjustHeap_descent.
  assert (Hit : iter fuel (adjustHeap_step compare first n) (l, p, 2 * p + 2)
                = Ok (l, p, 2 * p + 2)).
  { destruct fuel; simpl; destruct (Z.ltb_spec (2 * p + 2) n); try lia; reflexivity. }
  rewrite Hit, bind_Ok. destruct (Z.eqb_spec (2 * p + 2) n); [lia|]. reflexivity.
Qed.

End Sift.

(** ** The public operations *)

Section Operations.
Context {T : Type} (compare : T → T → bool) `{!StrictWeakOrder compare}.
Implicit Types (l : list T) (first last top n p q c : Z) (v x y : T).

Lemma heap_from_ext l l' first top n :
  0 ≤ first → (∀ j, first ≤ j < first + n → rd l' j = rd l j) →
  heap_from compare l first top n → heap_from compare l' first top n.
Proof.
  intros Hf Hsame H c Hc Ht x y Hx Hy.
  rewrite Hsame in Hx, Hy by lia. eapply H; eauto.
Qed.

Lemma hole_ext l l' first top n p :
  0 ≤ first → (∀ j, first ≤ j < first + n → rd l' j = rd l j) →
  hole compare l first top n p → hole compare l' first top n p.
Proof.
  intros Hf Hsame [Ha Hb]. split.
  - intros c Hc Ht Hne Hpn x y Hx Hy.
    rewrite Hsame in Hx, Hy by lia. eapply Ha; eauto.
  - intros c x y Hc Hcp Hp Ht Hx Hy.
    rewrite Hsame in Hx, Hy by lia. eapply Hb; eauto.
Qed.

Lemma heap_from_shrink l first top n n' :
  n' ≤ n → heap_from compare l first top n → heap_from compare l first top n'.
Proof. intros Hn H c Hc. apply H. lia. Qed.

Lemma hole_shrink l first top n n' p :
  n' ≤ n → hole compare l first top n p → hole compare l first top n' p.
Proof.
  intros Hn [Ha Hb]. split.
  - intros c Hc. apply Ha. lia.
  - intros c x y Hc. apply Hb. lia.
Qed.

(** A heap of [n-1] positions followed by any element is a heap of [n]
    positions with a hole at the last one. *)
Lemma hole_last l first top n :
  heap_from compare l first top (n - 1) → hole compare l first top n (n - 1).
Proof.
  intros H. split.
  - intros c Hc Ht Hne _. apply H; lia.
  - intros c x y Hc Hcp. lia.
Qed.

(** A heap in which the element at [p] was replaced is a heap with a hole
    at [p]. *)
Lemma hole_of_heap_upd l first top n p x0 :
  0 ≤ first → first + n ≤ Z.of_nat (length l) → 0 ≤ p < n →
  heap_from compare (upd l (first + p) x0) first top n →
  hole compare l first top n p.
Proof.
  intros Hf Hn Hp H. split.
  - intros c Hc Ht Hne Hpn x y Hx Hy.
    apply (H c Hc Ht); rewrite rd_upd_ne by lia; assumption.
  - intros c x y Hc Hcp Hp0 Ht Hx Hy.
    apply (swo_nlt_trans compare x x0 y).
    + apply (H p); [lia | lia | |].
      * rewrite rd_upd_ne by lia. assumption.
      * apply rd_upd_eq. lia.
    + apply (H c); [lia | lia | |].
      * rewrite Hcp. apply rd_upd_eq. lia.
      * rewrite rd_upd_ne by lia. assumption.
Qed.

Lemma hole_of_heap l first top n p :
  0 ≤ first → first + n ≤ Z.of_nat (length l) → 0 ≤ p < n →
  heap_from compare l first top n → hole compare l first top n p.
Proof.
  intros Hf Hn Hp H. destruct (rd_inb l (first + p)) as [x Hx]; [lia|].
  apply (hole_of_heap_upd l first top n p x); try assumption.
  rewrite (upd_same _ _ _ Hx). assumption.
Qed.

(** The root of a heap is not of lower priority than any of its
    elements. *)
Lemma heap_root_max l first n r :
  0 ≤ first → first + n ≤ Z.of_nat (length l) →
  heap_from compare l first 0 n → rd l first = Ok r →
  ∀ k y, 0 ≤ k < n → rd l (first + k) = Ok y → compare r y = false.
Proof.
  intros Hf Hn H Hr k. remember (Z.to_nat k) as m eqn:Hm.
  revert k Hm. induction m as [m IH] using lt_wf_ind. intros k -> y Hk Hy.
  destruct (decide (k = 0)) as [->|Hne].
  - rewrite Z.add_0_r in Hy. rewrite Hr in Hy. injection Hy as <-.
    apply swo_irrefl.
  - destruct (rd_inb l (first + (k - 1) / 2)) as [z Hz]; [lia|].
    apply (swo_nlt_trans compare r z y).
    + apply (IH (Z.to_nat ((k - 1) / 2))) with (k := (k - 1) / 2); try lia.
      assumption.
    + apply (H k); [lia | lia | assumption | assumption].
Qed.

(** Promoting the last element of a range whose other elements form a
    heap: this is [pushHeap], and the last step of [changeHeap]. *)
Lemma promoteHeap_last fuel l first n v :
  0 ≤ first → first + n ≤ Z.of_nat (length l) → 0 < n →
  heap_from compare l first 0 (n - 1) → rd l (first + (n - 1)) = Ok v →
  (Z.to_nat n ≤ fuel)%nat →
  ∃ l', promoteHeap compare fuel l first 0 (n - 1) v = Ok l' ∧
        heap_from compare l' first 0 n ∧ l' ≡ₚ l ∧ length l' = length l ∧
        (∀ j, ¬ (first ≤ j < first + n) → rd l' j = rd l j).
Proof.
  intros Hf Hn Hpos Hheap Hv Hfuel.
  destruct (promoteHeap_correct compare fuel l first 0 n (n - 1) v)
    as (l' & Hrun & Hh & Hperm & Hlen & Hout); try assumption; try lia.
  - apply desc_zero. lia.
  - apply hole_last. assumption.
  - intros c y Hc Hcp. lia.
  - exists l'. split; [assumption|]. split; [assumption|].
    split; [rewrite Hperm, (upd_same _ _ _ Hv); reflexivity|].
    split; [assumption|]. intros j Hj. apply Hout. lia.
Qed.

Lemma pushHeap_correct fuel l first last :
  valid_range l first last → first < last →
  heap_inv compare l first (last - 1) →
  (Z.to_nat (last - first) ≤ fuel)%nat →
  ∃ l', pushHeap compare fuel l first last = Ok l' ∧
        heap_inv compare l' first last ∧ l' ≡ₚ l ∧ length l' = length l ∧
        (∀ j, ¬ (first ≤ j < last) → rd l' j = rd l j).
Proof.
  intros (Hf & Hfl & Hl) Hne Hheap Hfuel. unfold heap_inv in *.
  destruct (rd_inb l (last - 1)) as [v Hv]; [lia|].
  destruct (promoteHeap_last fuel l first (last - first) v)
    as (l' & Hrun & Hh & Hperm & Hlen & Hout); try assumption; try lia.
  - replace (last - first - 1) with (last - 1 - first) by lia. assumption.
  - replace (first + (last - first - 1)) with (last - 1) by lia. assumption.
  - exists l'. unfold pushHeap. rewrite Hv, bind_Ok.
    split; [assumption|]. split; [assumption|]. split; [assumption|].
    split; [assumption|]. intros j Hj. apply Hout. lia.
Qed.

Lemma popHeap_correct fuel l first last r :
  valid_range l first last → first < last →
  heap_inv compare l first last → rd l first = Ok r →
  (Z.to_nat (last - first) ≤ fuel)%nat →
  ∃ l', popHeap compare fuel l first last = Ok l' ∧
        rd l' (last - 1) = Ok r ∧
        heap_inv compare l' first (last - 1) ∧ l' ≡ₚ l ∧
        length l' = length l ∧
        (∀ j, ¬ (first ≤ j < last) → rd l' j = rd l j).
Proof.
  intros (Hf & Hfl & Hl) Hne Hheap Hr Hfuel. unfold heap_inv in *.
  destruct (rd_inb l (last - 1)) as [b Hb]; [lia|].
  unfold popHeap. rewrite Hb, bind_Ok, Hr, bind_Ok, wr_inb, bind_Ok by lia.
  destruct (decide (first = last - 1)) as [Hd|Hd].
  - (* a single element: nothing moves *)
    assert (b = r) as -> by (rewrite <- Hd, Hr in Hb; congruence).
    rewrite (upd_same _ _ _ Hb).
    rewrite adjustHeap_no_child by lia.
    rewrite promoteHeap_stay by (left; lia).
    rewrite Z.add_0_r, wr_inb by lia. rewrite (upd_same _ _ _ Hr).
    exists l. split; [reflexivity|]. split; [assumption|].
    split; [intros c Hc; lia|]. split; [reflexivity|]. split; reflexivity.
  - set (l1 := upd l (last - 1) r).
    set (n := last - first - 1).
    assert (Hsame : ∀ j, j ≠ last - 1 → rd l1 j = rd l j).
    { intros j Hj. apply rd_upd_ne; lia. }
    destruct (adjustHeap_correct compare fuel l1 first 0 n 0 b)
      as (l' & Hrun & Hh & Hperm & Hlen & Hout);
      try (unfold l1; rewrite length_upd); try lia.
    { constructor. }
    { apply hole_of_heap; try (unfold l1; rewrite length_upd); try lia.
      apply (heap_from_ext l); [lia | intros; apply Hsame; lia |].
      eapply heap_from_shrink; [|eassumption]. lia. }
    exists l'. split; [assumption|]. split.
    { rewrite Hout by lia. apply rd_upd_eq. lia. }
    split; [replace (last - 1 - first) with n by lia; assumption|].
    split.
    { rewrite Hperm, Z.add_0_r. apply upd_swap_perm; assumption. }
    split; [rewrite Hlen; apply length_upd|].
    intros j Hj. rewrite Hout by lia. apply Hsame. lia.
Qed.

Lemma makeHeap_small fuel l first last :
  last - first < 2 → makeHeap compare fuel l first last = Ok l.
Proof.
  intros H. unfold makeHeap. destruct (Z.geb_spec (last - first) 2); [lia|].
  reflexivity.
Qed.

Lemma makeHeap_correct fuel l first last :
  valid_range l first last →
  (Z.to_nat (last - first) ≤ fuel)%nat →
  ∃ l', makeHeap compare fuel l first last = Ok l' ∧
        heap_inv compare l' first last ∧ l' ≡ₚ l ∧ length l' = length l ∧
        (∀ j, ¬ (first ≤ j < last) → rd l' j = rd l j).
Proof.
  intros (Hf & Hfl & Hl) Hfuel. unfold heap_inv.
  destruct (Z.lt_ge_cases (last - first) 2) as [Hsmall|Hbig].
  { exists l. rewrite makeHeap_small by assumption.
    split; [reflexivity|]. split; [intros c Hc; lia|].
    split; [reflexivity|]. split; reflexivity. }
  unfold makeHeap. destruct (Z.geb_spec (last - first) 2); [|lia].
  rewrite shiftr_half. set (n := last - first) in *.
  set (I := fun s : list T * Z =>
    let '(l1, k) := s in
    length l1 = length l ∧ 0 < k ≤ (n - 2) / 2 + 1 ∧
    heap_from compare l1 first k n ∧ l1 ≡ₚ l ∧
    (∀ j, ¬ (first ≤ j < last) → rd l1 j = rd l j)).
  set (Q := fun l1 : list T =>
    length l1 = length l ∧ heap_from compare l1 first 0 n ∧ l1 ≡ₚ l ∧
    (∀ j, ¬ (first ≤ j < last) → rd l1 j = rd l j)).
  destruct (iter_rule (makeHeap_step compare fuel first n) I
              (fun s => Z.to_nat (snd s)) Q) with (fuel := fuel) (s := (l, (n - 2) / 2 + 1))
    as [l' [Hit HQ]].
  - intros [l1 k] (Hlen & Hk & Hh & Hperm & Hout).
    unfold makeHeap_step.
    destruct (rd_inb l1 (first + (k - 1))) as [temp Htemp]; [lia|].
    rewrite Htemp, bind_Ok.
    destruct (adjustHeap_correct compare fuel l1 first (k - 1) n (k - 1) temp)
      as (l2 & Hrun & Hh2 & Hperm2 & Hlen2 & Hout2); try lia.
    { constructor. }
    { split.
      - intros c Hc Ht Hne Hpn. apply Hh; lia.
      - intros c x y Hc Hcp Hp Ht. lia. }
    rewrite Hrun, bind_Ok. rewrite (upd_same _ _ _ Htemp) in Hperm2.
    assert (Hperm3 : l2 ≡ₚ l) by (rewrite Hperm2; assumption).
    assert (Hout3 : ∀ j, ¬ (first ≤ j < last) → rd l2 j = rd l j).
    { intros j Hj. rewrite Hout2 by lia. apply Hout. assumption. }
    destruct (Z.eqb_spec (k - 1) 0) as [Hz|Hnz]; simpl.
    + rewrite Hz in Hh2. split; [congruence|]. split; [assumption|].
      split; assumption.
    + split; [|lia].
      split; [congruence|]. split; [lia|]. split; [assumption|].
      split; assumption.
  - unfold I. split; [reflexivity|]. split; [lia|]. split.
    + intros c Hc Ht. lia.
    + split; reflexivity.
  - simpl. lia.
  - destruct HQ as (Hlen & Hh & Hperm & Hout). exists l'. auto.
Qed.

Lemma sortHeap_correct fuel l first last :
  valid_range l first last → heap_inv compare l first last →
  (Z.to_nat (last - first) ≤ fuel)%nat →
  ∃ l', sortHeap compare fuel l first last = Ok l' ∧
        ascending compare (region l' first last) ∧ l' ≡ₚ l ∧
        length l' = length l ∧
        (∀ j, ¬ (first ≤ j < last) → rd l' j = rd l j).
Proof.
  intros (Hf & Hfl & Hl) Hheap Hfuel.
  set (I := fun s : list T * Z =>
    let '(l1, last1) := s in
    length l1 = length l ∧ first ≤ last1 ≤ last ∧
    heap_inv compare l1 first last1 ∧ l1 ≡ₚ l ∧
    (∀ j, ¬ (first ≤ j < last) → rd l1 j = rd l j) ∧
    ascending compare (region l1 last1 last) ∧
    (∀ x y, x ∈ region l1 first last1 → y ∈ region l1 last1 last →
            compare y x = false)).
  set (Q := fun l1 : list T =>
    length l1 = length l ∧ l1 ≡ₚ l ∧
    (∀ j, ¬ (first ≤ j < last) → rd l1 j = rd l j) ∧
    ascending compare (region l1 first last)).
  destruct (iter_rule (sortHeap_step compare fuel first) I
              (fun s => Z.to_nat (snd s - first)) Q) with (fuel := fuel) (s := (l, last))
    as [l' [Hit HQ]].
  - intros [l1 last1] (Hlen & Hlast & Hh & Hperm & Hout & Hsorted & Hcross).
    unfold sortHeap_step. destruct (Z.gtb_spec (last1 - first) 1) as [Hgt|Hle].
    + destruct (rd_inb l1 first) as [r Hr]; [lia|].
      destruct (popHeap_correct fuel l1 first last1 r)
        as (l2 & Hrun & Hback & Hh2 & Hperm2 & Hlen2 & Hout2);
        try assumption; try lia.
      { repeat split; lia. }
      rewrite Hrun, bind_Ok. split; [|simpl; lia].
      assert (Hsub : ∀ x, x ∈ region l2 first (last1 - 1) → x ∈ region l1 first last1).
      { intros x Hx.
        rewrite <- (region_perm l1 l2 first last1); [| repeat split; lia | assumption | assumption].
        rewrite (region_snoc l2 first last1 r) by (assumption || lia).
        apply elem_of_app. left. assumption. }
      assert (Hrest : region l2 (last1 - 1) last = r :: region l1 last1 last).
      { rewrite (region_cons l2 (last1 - 1) last r) by (assumption || lia).
        replace (last1 - 1 + 1) with last1 by lia.
        f_equal. apply region_ext; [lia|]. intros j Hj. apply Hout2. lia. }
      split; [congruence|]. split; [lia|]. split; [assumption|].
      split; [rewrite Hperm2; assumption|]. split.
      { intros j Hj. rewrite Hout2 by lia. apply Hout. assumption. }
      rewrite Hrest. split.
      * apply StronglySorted_cons. split; [|assumption].
        apply Forall_forall. intros y Hy. apply Hcross; [|assumption].
        apply elem_of_region; [lia|]. exists first. split; [lia | assumption].
      * intros x y Hx Hy. apply Hsub in Hx. apply elem_of_cons in Hy as [->|Hy].
        -- apply elem_of_region in Hx as (j & Hj & Hxj); [|lia].
           apply (heap_root_max l1 first (last1 - first) r) with (k := j - first);
             try assumption; try lia.
           replace (first + (j - first)) with j by lia. assumption.
        -- apply Hcross; assumption.
    + split; [assumption|]. split; [assumption|]. split; [assumption|].
      rewrite (region_split l1 first last1 last) by lia.
      apply StronglySorted_app. split; [assumption|]. split; [|assumption].
      pose proof (length_region l1 first last1) as Hlr.
      destruct (region l1 first last1) as [|x [|y s]].
      * constructor.
      * repeat constructor.
      * simpl in Hlr. unfold valid_range in Hlr. lia.
  - unfold I. split; [reflexivity|]. split; [lia|]. split; [assumption|].
    split; [reflexivity|]. split; [reflexivity|].
    rewrite (region_empty l last last) by lia. split; [constructor|].
    intros x y _ Hy. apply elem_of_nil in Hy. contradiction.
  - simpl. lia.
  - destruct HQ as (Hlen & Hperm & Hout & Hs). exists l'. auto.
Qed.

Lemma pop_n_times_correct fuel first (n : nat) :
  ∀ l last,
  valid_range l first last → Z.to_nat (last - first) = n →
  heap_inv compare l first last → (n ≤ fuel)%nat →
  ∃ l' xs, pop_n_times compare fuel n l first last = Ok (l', xs) ∧
           xs ≡ₚ region l first last ∧ descending compare xs.
Proof.
  induction n as [|n IH]; intros l last (Hf & Hfl & Hl) Hn Hheap Hfuel.
  - exists l, []. split; [reflexivity|].
    rewrite region_empty by lia. split; [reflexivity | constructor].
  - destruct (rd_inb l first) as [r Hr]; [lia|].
    destruct (popHeap_correct fuel l first last r)
      as (l1 & Hrun & Hback & Hh1 & Hperm1 & Hlen1 & Hout1);
      try assumption; try lia.
    { repeat split; lia. }
    destruct (IH l1 (last - 1)) as (l2 & xs & Hrec & Hperm2 & Hdesc);
      try assumption; try lia.
    { repeat split; lia. }
    exists l2, (r :: xs). cbn [pop_n_times].
    rewrite Hrun, bind_Ok, Hback, bind_Ok, Hrec, bind_Ok.
    split; [reflexivity|].
    assert (Hall : r :: xs ≡ₚ region l first last).
    { rewrite <- (region_perm l l1 first last); [| repeat split; lia | assumption | assumption].
      rewrite (region_snoc l1 first last r) by (assumption || lia).
      rewrite Hperm2. apply Permutation_cons_append. }
    split; [assumption|].
    apply StronglySorted_cons. split; [|assumption].
    apply Forall_forall. intros y Hy.
    assert (Hy' : y ∈ region l first last).
    { rewrite <- Hall. apply elem_of_cons. right. assumption. }
    apply elem_of_region in Hy' as (j & Hj & Hyj); [|lia].
    apply (heap_root_max l first (last - first) r) with (k := j - first);
      try assumption; try lia.
    replace (first + (j - first)) with j by lia. assumption.
Qed.

(** [removeHeap] of the last position only promotes the last element. *)
Lemma removeHeap_last fuel l first hs v :
  0 < hs → rd l (first + hs - 1) = Ok v →
  removeHeap compare fuel l first hs (hs - 1) =
  promoteHeap compare fuel l first 0 (hs - 1) v.
Proof.
  intros Hhs Hv. pose proof (rd_Ok_inb _ _ _ Hv) as Hb. unfold removeHeap.
  replace (first + (hs - 1)) with (first + hs - 1) by lia.
  rewrite Hv, !bind_Ok, wr_inb, bind_Ok by lia.
  rewrite (upd_same _ _ _ Hv). apply adjustHeap_no_child. lia.
Qed.

(** [removeHeap] on a heap of [hs] positions with a hole at [p]: a heap
    in which the element at [p] may have been replaced. *)
Lemma removeHeap_changed fuel l first hs p :
  0 ≤ first → first + hs ≤ Z.of_nat (length l) → 0 ≤ p < hs →
  hole compare l first 0 hs p →
  (Z.to_nat hs ≤ fuel)%nat →
  ∃ l', removeHeap compare fuel l first hs p = Ok l' ∧
        heap_from compare l' first 0 (hs - 1) ∧
        (p < hs - 1 → rd l' (first + hs - 1) = rd l (first + p)) ∧
        l' ≡ₚ l ∧ length l' = length l ∧
        (∀ j, ¬ (first ≤ j < first + hs) → rd l' j = rd l j).
Proof.
  intros Hf Hn Hp Hhole Hfuel.
  destruct (rd_inb l (first + hs - 1)) as [b Hb]; [lia|].
  destruct (decide (p = hs - 1)) as [->|Hne].
  - rewrite (removeHeap_last _ _ _ _ b) by (assumption || lia).
    destruct (promoteHeap_last fuel l first hs b)
      as (l' & Hrun & Hh & Hperm & Hlen & Hout); try assumption; try lia.
    { destruct Hhole as [Ha _]. intros c Hc Ht. apply Ha; lia. }
    { replace (first + (hs - 1)) with (first + hs - 1) by lia. assumption. }
    exists l'. split; [assumption|].
    split; [eapply heap_from_shrink; [|eassumption]; lia|].
    split; [lia|]. auto.
  - destruct (rd_inb l (first + p)) as [x Hx]; [lia|].
    unfold removeHeap. rewrite Hb, bind_Ok, Hx, bind_Ok, wr_inb, bind_Ok by lia.
    set (l1 := upd l (first + hs - 1) x).
    assert (Hsame : ∀ j, j ≠ first + hs - 1 → rd l1 j = rd l j).
    { intros j Hj. apply rd_upd_ne; lia. }
    destruct (adjustHeap_correct compare fuel l1 first 0 (hs - 1) p b)
      as (l' & Hrun & Hh & Hperm & Hlen & Hout);
      try (unfold l1; rewrite length_upd); try lia.
    { apply desc_zero. lia. }
    { apply (hole_ext l); [lia | intros; apply Hsame; lia |].
      apply (hole_shrink l first 0 hs); [lia | assumption]. }
    exists l'. split; [assumption|]. split; [assumption|]. split.
    { intros _. rewrite Hout by lia. apply rd_upd_eq. lia. }
    split.
    { rewrite Hperm. unfold l1.
      rewrite upd_comm by lia. apply upd_swap_perm; assumption. }
    split; [rewrite Hlen; apply length_upd|].
    intros j Hj. rewrite Hout by lia. apply Hsame. lia.
Qed.

Lemma removeHeap_correct fuel l first hs p :
  0 ≤ first → first + hs ≤ Z.of_nat (length l) → 0 ≤ p < hs →
  heap_from compare l first 0 hs →
  (Z.to_nat hs ≤ fuel)%nat →
  ∃ l', removeHeap compare fuel l first hs p = Ok l' ∧
        heap_from compare l' first 0 (hs - 1) ∧
        rd l' (first + hs - 1) = rd l (first + p) ∧
        l' ≡ₚ l ∧ length l' = length l ∧
        (∀ j, ¬ (first ≤ j < first + hs) → rd l' j = rd l j).
Proof.
  intros Hf Hn Hp Hheap Hfuel.
  destruct (decide (p = hs - 1)) as [->|Hne].
  - destruct (rd_inb l (first + hs - 1)) as [b Hb]; [lia|].
    rewrite (removeHeap_last _ _ _ _ b) by (assumption || lia).
    rewrite promoteHeap_stay.
    + rewrite wr_inb by lia.
      replace (first + (hs - 1)) with (first + hs - 1) by lia.
      rewrite (upd_same _ _ _ Hb). exists l.
      split; [reflexivity|].
      split; [eapply heap_from_shrink; [|eassumption]; lia|].
      split; [reflexivity|]. split; [reflexivity|]. split; reflexivity.
    + destruct (decide (hs - 1 ≤ 0)); [left; assumption | right].
      destruct (rd_inb l (first + (hs - 1 - 1) / 2)) as [x Hx]; [lia|].
      exists x. split; [assumption|].
      apply (Hheap (hs - 1)); [lia | lia | assumption |].
      replace (first + (hs - 1)) with (first + hs - 1) by lia. assumption.
  - destruct (removeHeap_changed fuel l first hs p)
      as (l' & Hrun & Hh & Hback & Hrest); try assumption.
    { apply hole_of_heap; assumption. }
    exists l'. split; [assumption|]. split; [assumption|].
    split; [apply Hback; lia | assumption].
Qed.

Lemma changeHeap_correct fuel l first hs p :
  0 ≤ first → first + hs ≤ Z.of_nat (length l) → 0 ≤ p < hs →
  hole compare l first 0 hs p →
  (Z.to_nat hs ≤ fuel)%nat →
  ∃ l', changeHeap compare fuel l first hs p = Ok l' ∧
        heap_from compare l' first 0 hs ∧
        l' ≡ₚ l ∧ length l' = length l ∧
        (∀ j, ¬ (first ≤ j < first + hs) → rd l' j = rd l j).
Proof.
  intros Hf Hn Hp Hheap Hfuel.
  destruct (removeHeap_changed fuel l first hs p)
    as (l1 & Hrun & Hh & _ & Hperm & Hlen & Hout); try assumption.
  destruct (rd_inb l1 (first + hs - 1)) as [b Hb]; [lia|].
  destruct (promoteHeap_last fuel l1 first hs b)
    as (l2 & Hrun2 & Hh2 & Hperm2 & Hlen2 & Hout2); try assumption; try lia.
  { replace (first + (hs - 1)) with (first + hs - 1) by lia. assumption. }
  exists l2. unfold changeHeap. rewrite Hrun, bind_Ok, Hb, bind_Ok.
  split; [assumption|]. split; [assumption|].
  split; [rewrite Hperm2; assumption|]. split; [congruence|].
  intros j Hj. rewrite Hout2 by assumption. apply Hout. assumption.
Qed.

(** In a range that is both ascending and a heap, no element is of lower
    priority than another. *)
Lemma ascending_heap_flat l first last x y :
  valid_range l first last →
  ascending compare (region l first last) → heap_inv compare l first last →
  x ∈ region l first last → y ∈ region l first last → compare x y = false.
Proof.
  intros (Hf & Hfl & Hl) Hasc Hheap Hx Hy.
  destruct (decide (first = last)) as [->|Hne].
  { rewrite region_empty in Hx by lia. apply elem_of_nil in Hx. contradiction. }
  destruct (rd_inb l first) as [r Hr]; [lia|].
  apply (swo_nlt_trans compare x r y).
  - rewrite (region_cons l first last r) in Hasc, Hx by (assumption || lia).
    apply StronglySorted_cons in Hasc as [Hall _].
    apply elem_of_cons in Hx as [->|Hx]; [apply swo_irrefl|].
    rewrite Forall_forall in Hall. apply Hall. assumption.
  - apply elem_of_region in Hy as (j & Hj & Hyj); [|lia].
    apply (heap_root_max l first (last - first) r) with (k := j - first);
      try assumption; try lia.
    replace (first + (j - first)) with j by lia. assumption.
Qed.

(** Under a total order (elements of equal priority are equal) the
    ascending arrangement of a collection is unique. *)
Lemma ascending_unique (s1 s2 : list T) :
  (∀ a b, compare a b = false → compare b a = false → a = b) →
  ascending compare s1 → ascending compare s2 → s1 ≡ₚ s2 → s1 = s2.
Proof.
  intros Htotal. revert s2. induction s1 as [|a s1 IH]; intros s2 H1 H2 Hperm.
  - apply Permutation_nil_l in Hperm. congruence.
  - destruct s2 as [|b s2]; [apply Permutation_nil_r in Hperm; discriminate|].
    apply StronglySorted_cons in H1 as [Ha H1].
    apply StronglySorted_cons in H2 as [Hb H2].
    rewrite Forall_forall in Ha, Hb.
    assert (a = b) as <-.
    { assert (Hab : a ∈ b :: s2) by (rewrite <- Hperm; left).
      assert (Hba : b ∈ a :: s1) by (rewrite Hperm; left).
      apply elem_of_cons in Hab as [?|Hab]; [assumption|].
      apply elem_of_cons in Hba as [?|Hba]; [congruence|].
      apply Htotal; [apply Hb | apply Ha]; assumption. }
    f_equal. apply IH; try assumption.
    apply (inj (cons a)). assumption.
Qed.

End Operations.

(** ** Validation *)

Section Validate.
Context {T : Type} (compare : T → T → bool).
Implicit Types (l : list T) (first last c r : Z).

Lemma isHeap_until_correct fuel l first last :
  valid_range l first last →
  (Z.to_nat (last - first) ≤ fuel)%nat →
  ∃ r, isHeap_until compare fuel l first last = Ok r ∧
       (∀ c, first < c < r → ¬ violates compare l first c) ∧
       (r = last ∨ (first < r < last ∧ violates compare l first r)).
Proof.
  intros (Hf & Hfl & Hl) Hfuel.
  set (I := fun s : Z * Z * Z =>
    let '(par, child, counter) := s in
    first < child ∧ par = first + (child - first - 1) / 2 ∧
    counter = (child - first - 1) mod 2 ∧
    (∀ c, first < c < child → ¬ violates compare l first c)).
  set (Q := fun r : Z =>
    (∀ c, first < c < r → ¬ violates compare l first c) ∧
    (r = last ∨ (first < r < last ∧ violates compare l first r))).
  apply (iter_rule (isHeap_until_step compare l last) I
           (fun s => Z.to_nat (last - snd (fst s))) Q).
  - intros [[par child] counter] (Hc & -> & -> & Hnone).
    unfold isHeap_until_step. destruct (Z.ltb_spec child last) as [Hlt|Hge].
    + destruct (rd_inb l (first + (child - first - 1) / 2)) as [x Hx]; [lia|].
      destruct (rd_inb l child) as [y Hy]; [lia|].
      rewrite Hx. cbn [mbind res_bind]. rewrite Hy. cbn [mbind res_bind].
      destruct (compare x y) eqn:Hxy.
      * split; [assumption|]. right. split; [lia|]. exists x, y. auto.
      * split; [|simpl; lia]. split; [lia|]. split.
        { assert ((child - first - 1) mod 2 = 0 ∨ (child - first - 1) mod 2 = 1)
            as [E|E] by lia; rewrite E; lia. }
        split.
        { assert ((child - first - 1) mod 2 = 0 ∨ (child - first - 1) mod 2 = 1)
            as [E|E] by lia; rewrite E;
            [change (Z.lxor 0 1) with 1 | change (Z.lxor 1 1) with 0]; lia. }
        intros c Hcc. destruct (decide (c = child)) as [->|Hne]; [|apply Hnone; lia].
        intros (x' & y' & Hx' & Hy' & Hcmp). congruence.
    + split.
      * intros c Hcc. apply Hnone. lia.
      * left. reflexivity.
  - unfold I. replace (first + 1 - first - 1) with 0 by lia.
    split; [lia|]. split; [change (0 / 2) with 0; lia|]. split; [reflexivity|].
    intros c Hc. lia.
  - simpl. lia.
Qed.

(** [isHeap] decides the heap invariant. *)
Lemma isHeap_correct fuel l first last :
  valid_range l first last →
  (Z.to_nat (last - first) ≤ fuel)%nat →
  ∃ b, isHeap compare fuel l first last = Ok b ∧
       (b = true ↔ heap_inv compare l first last).
Proof.
  intros Hv Hfuel.
  destruct (isHeap_until_correct fuel l first last Hv Hfuel) as (r & Hrun & Hnone & Hr).
  destruct Hv as (Hf & Hfl & Hl).
  exists (r =? last). unfold isHeap. rewrite Hrun. split; [reflexivity|].
  destruct Hr as [->|(Hrange & x & y & Hx & Hy & Hxy)].
  - rewrite Z.eqb_refl. split; [|reflexivity]. intros _ c Hc _ x y Hx Hy.
    destruct (compare x y) eqn:Hxy; [|reflexivity].
    exfalso. apply (Hnone (first + c)); [lia|]. exists x, y.
    replace (first + c - first - 1) with (c - 1) by lia. auto.
  - destruct (Z.eqb_spec r last) as [?|_]; [lia|]. split; [discriminate|].
    intros Hheap. exfalso.
    assert (compare x y = false); [|congruence].
    apply (Hheap (r - first)); [lia | lia | |].
    + replace (r - first - 1) with (r - first - 1) by lia. assumption.
    + replace (first + (r - first)) with r by lia. assumption.
Qed.

Lemma isHeap_of_heap fuel l first last :
  valid_range l first last →
  (Z.to_nat (last - first) ≤ fuel)%nat →
  heap_inv compare l first last →
  isHeap_until compare fuel l first last = Ok last ∧
  isHeap compare fuel l first last = Ok true.
Proof.
  intros Hv Hfuel Hheap.
  destruct (isHeap_correct fuel l first last Hv Hfuel) as (b & Hrun & Hb).
  apply Hb in Hheap as ->. split; [|assumption].
  unfold isHeap in Hrun.
  destruct (isHeap_until compare fuel l first last) as [r| |]; try discriminate.
  cbn [mbind res_bind] in Hrun. injection Hrun as Hr.
  apply Z.eqb_eq in Hr as ->. reflexivity.
Qed.

Lemma isHeap_true_heap fuel l first last :
  valid_range l first last →
  (Z.to_nat (last - first) ≤ fuel)%nat →
  isHeap compare fuel l first last = Ok true →
  heap_inv compare l first last.
Proof.
  intros Hv Hfuel Hrun.
  destruct (isHeap_correct fuel l first last Hv Hfuel) as (b & Hrun' & Hb).
  apply Hb. congruence.
Qed.

(** When the range is not a heap, two of its elements are of different
    priority. *)
Lemma not_heap_lt l first last :
  valid_range l first last → ¬ heap_inv compare l first last →
  ∃ x y, x ∈ region l first last ∧ y ∈ region l first last ∧ compare x y = true.
Proof.
  intros Hv Hnot.
  destruct (isHeap_until_correct (Z.to_nat (last - first)) l first last Hv)
    as (r & Hrun & Hnone & Hr); [lia|].
  destruct Hv as (Hf & Hfl & Hl).
  destruct (isHeap_correct (Z.to_nat (last - first)) l first last) as (b & Hrun' & Hb);
    [repeat split; lia | lia |].
  destruct Hr as [->|(Hrange & x & y & Hx & Hy & Hxy)].
  - exfalso. apply Hnot, Hb. unfold isHeap in Hrun'. rewrite Hrun in Hrun'.
    cbn [mbind res_bind] in Hrun'. rewrite Z.eqb_refl in Hrun'. congruence.
  - exists x, y. split; [|split; [|assumption]].
    + apply elem_of_region; [lia|]. eexists. split; [|exact Hx]. lia.
    + apply elem_of_region; [lia|]. eexists. split; [|exact Hy]. lia.
Qed.

End Validate.

(** ** Termination and absence of out-of-range accesses

    These facts need neither the heap invariant nor any property of the
    comparator: valid positions are enough. *)

Section Termination.
Context {T : Type} (compare : T → T → bool).
Implicit Types (l : list T) (first last top n p q : Z) (v : T).





Lemma promoteHeap_returns fuel l first top q v :
  0 ≤ first → 0 ≤ top → 0 ≤ q → first + q < Z.of_nat (length l) →
  (Z.to_nat q ≤ fuel)%nat →
  ∃ l', promoteHeap compare fuel l first top q v = Ok l' ∧ length l' = length l.
Proof.
  intros Hf Ht Hq Hb Hfuel.
  set (I := fun s : list T * Z =>
    length (fst s) = length l ∧ 0 ≤ snd s ≤ q).
  destruct (iter_rule (promoteHeap_step compare first top v) I
              (fun s => Z.to_nat (snd s)) I) with (fuel := fuel) (s := (l, q))
    as [[l1 q1] [Hit [Hlen Hq1]]].
  - intros [l1 q1] [Hlen Hq1]. simpl in Hlen, Hq1.
    unfold promoteHeap_step. rewrite shiftr_half.
    destruct (Z.gtb_spec q1 top); [|split; assumption].
    destruct (rd_inb l1 (first + (q1 - 1) / 2)) as [x Hx]; [lia|].
    rewrite Hx, bind_Ok. destruct (compare x v); [|split; assumption].
    rewrite bind_Ok, wr_inb, bind_Ok by lia.
    split; [|simpl; lia]. split; simpl; [|lia].
    rewrite length_upd. assumption.
  - split; simpl; [reflexivity | lia].
  - simpl. lia.
  - simpl in Hlen, Hq1. unfold promoteHeap. rewrite Hit, bind_Ok.
    rewrite wr_inb by lia. eexists. split; [reflexivity|].
    rewrite length_upd. assumption.
Qed.

Lemma adjustHeap_returns fuel l first top n p v :
  0 ≤ first → 0 ≤ top → 0 ≤ p ≤ n →
  first + n ≤ Z.of_nat (length l) → first + p < Z.of_nat (length l) →
  (Z.to_nat n ≤ fuel)%nat →
  ∃ l', adjustHeap compare fuel l first top n p v = Ok l' ∧ length l' = length l.
Proof.
  intros Hf Ht Hp Hn Hb Hfuel.
  set (I := fun s : list T * Z * Z =>
    let '(l1, q1, c1) := s in
    length l1 = length l ∧ c1 = 2 * q1 + 2 ∧ p ≤ q1 ≤ n ∧
    first + q1 < Z.of_nat (length l)).
  destruct (iter_rule (adjustHeap_step compare first n) I
              (fun s => Z.to_nat (n - snd s)) (fun s => I s ∧ n ≤ snd s))
    with (fuel := fuel) (s := (l, p, 2 * p + 2))
    as [[[l1 q1] c1] [Hit [(Hlen & -> & Hq1 & Hb1) Hexit]]].
  - intros [[l1 q1] c1] HI. pose proof HI as (Hlen & -> & Hq1 & Hb1).
    unfold adjustHeap_step.
    destruct (Z.ltb_spec (2 * q1 + 2) n); [|split; [assumption | simpl; lia]].
    destruct (rd_inb l1 (first + (2 * q1 + 2))) as [cr Hcr]; [lia|].
    destruct (rd_inb l1 (first + (2 * q1 + 2 - 1))) as [cl Hcl]; [lia|].
    rewrite Hcr. cbn [mbind res_bind]. rewrite Hcl. cbn [mbind res_bind].
    destruct (compare cr cl).
    + rewrite Hcl. cbn [mbind res_bind]. rewrite wr_inb by lia. cbn [mbind res_bind].
      split; [|simpl; lia]. unfold I. rewrite length_upd. repeat split; lia.
    + rewrite Hcr. cbn [mbind res_bind]. rewrite wr_inb by lia. cbn [mbind res_bind].
      split; [|simpl; lia]. unfold I. rewrite length_upd. repeat split; lia.
  - unfold I. repeat split; lia.
  - simpl. lia.
  - simpl in Hexit. unfold adjustHeap. rewrite Hit. cbn [mbind res_bind].
    destruct (Z.eqb_spec (2 * q1 + 2) n) as [Heq|Hne].
    + destruct (rd_inb l1 (first + (2 * q1 + 2 - 1))) as [x Hx]; [lia|].
      rewrite Hx. cbn [mbind res_bind]. rewrite wr_inb by lia. cbn [mbind res_bind].
      destruct (promoteHeap_returns fuel (upd l1 (first + q1) x) first top
                  (2 * q1 + 2 - 1) v) as (l' & Hrun & Hlen');
        try rewrite length_upd; try lia.
      exists l'. split; [assumption|]. rewrite Hlen', length_upd. assumption.
    + cbn [mbind res_bind].
      destruct (promoteHeap_returns fuel l1 first top q1 v) as (l' & Hrun & Hlen');
        try lia.
      exists l'. split; [assumption | congruence].
Qed.







End Termination.

(** ** The specification of the public operations *)

(** [operator<] on integers, the comparator of the examples. *)
#[global] Instance Zltb_swo : StrictWeakOrder Z.ltb.
Proof.
  split.
  - intros a. apply Z.ltb_irrefl.
  - intros a b c. rewrite !Z.ltb_lt. lia.
  - intros a b c. rewrite !Z.ltb_ge. lia.
Qed.

Section Specification.
Context {T : Type} (compare : T → T → bool).
Implicit Types (l : list T) (first last heapSize position : Z).

Lemma valid_range_length l l' first last :
  length l' = length l → valid_range l first last → valid_range l' first last.
Proof. unfold valid_range. intros ->. auto. Qed.

(** C1. On any range, in any order, [makeHeap] returns a range that
    satisfies the heap invariant ([isHeap_until] finds no violation and
    [isHeap] answers true) and holds the same elements; a range of fewer
    than two elements is left as it is. *)
Theorem makeHeap_establishes_heap fuel l first last :
  StrictWeakOrder compare →
  valid_range l first last →
  (Z.to_nat (last - first) ≤ fuel)%nat →
  ∃ l', makeHeap compare fuel l first last = Ok l' ∧
        heap_inv compare l' first last ∧
        isHeap_until compare fuel l' first last = Ok last ∧
        isHeap compare fuel l' first last = Ok true ∧
        region l' first last ≡ₚ region l first last ∧
        (last - first < 2 → l' = l).
Proof.
  intros Hswo Hv Hfuel.
  destruct (makeHeap_correct compare fuel l first last Hv Hfuel)
    as (l' & Hrun & Hheap & Hperm & Hlen & Hout).
  pose proof (valid_range_length _ _ _ _ Hlen Hv) as Hv'.
  destruct (isHeap_of_heap compare fuel l' first last Hv' Hfuel Hheap) as [Hu Hi].
  exists l'. split; [assumption|]. split; [assumption|]. split; [assumption|].
  split; [assumption|]. split; [apply region_perm; assumption|].
  intros Hsmall. rewrite makeHeap_small in Hrun by assumption. congruence.
Qed.

(** C2. On a heap of at least one element, [popHeap] moves the former
    root, which is not of lower priority than any element, to [last-1]
    and leaves a heap of the other elements in [[first,last-1)]; popping
    as many times as there are elements extracts them in descending
    order. *)
Theorem popHeap_extracts_maximum fuel l first last :
  StrictWeakOrder compare →
  valid_range l first last → first < last →
  heap_inv compare l first last →
  (Z.to_nat (last - first) ≤ fuel)%nat →
  ∃ l' r, rd l first = Ok r ∧
          popHeap compare fuel l first last = Ok l' ∧
          rd l' (last - 1) = Ok r ∧
          (∀ x, x ∈ region l first last → compare r x = false) ∧
          heap_inv compare l' first (last - 1) ∧
          region l' first (last - 1) ++ [r] ≡ₚ region l first last ∧
          ∃ l'' xs,
            pop_n_times compare fuel (Z.to_nat (last - first)) l first last
              = Ok (l'', xs) ∧
            xs ≡ₚ region l first last ∧ descending compare xs.
Proof.
  intros Hswo Hv Hne Hheap Hfuel. pose proof Hv as (Hf & Hfl & Hl).
  destruct (rd_inb l first) as [r Hr]; [lia|].
  destruct (popHeap_correct compare fuel l first last r Hv Hne Hheap Hr Hfuel)
    as (l' & Hrun & Hback & Hheap' & Hperm & Hlen & Hout).
  exists l', r. split; [assumption|]. split; [assumption|]. split; [assumption|].
  split.
  { intros x (j & Hj & Hx)%elem_of_region; [|lia].
    apply (heap_root_max compare l first (last - first) r) with (k := j - first);
      try assumption; try lia.
    replace (first + (j - first)) with j by lia. assumption. }
  split; [assumption|]. split.
  { rewrite <- (region_snoc l' first last r) by (assumption || lia).
    apply region_perm; assumption. }
  apply (pop_n_times_correct compare fuel first); try assumption; reflexivity.
Qed.

(** C3. When [[first,last-1)] is a heap and [last-1] holds a new element,
    [pushHeap] makes [[first,last)] a heap of the same elements. *)
Theorem pushHeap_restores_heap fuel l first last :
  StrictWeakOrder compare →
  valid_range l first last → first < last →
  heap_inv compare l first (last - 1) →
  (Z.to_nat (last - first) ≤ fuel)%nat →
  ∃ l', pushHeap compare fuel l first last = Ok l' ∧
        heap_inv compare l' first last ∧
        isHeap compare fuel l' first last = Ok true ∧
        region l' first last ≡ₚ region l first last.
Proof.
  intros Hswo Hv Hne Hheap Hfuel.
  destruct (pushHeap_correct compare fuel l first last Hv Hne Hheap Hfuel)
    as (l' & Hrun & Hheap' & Hperm & Hlen & Hout).
  pose proof (valid_range_length _ _ _ _ Hlen Hv) as Hv'.
  exists l'. split; [assumption|]. split; [assumption|].
  split; [apply isHeap_of_heap; assumption|].
  apply region_perm; assumption.
Qed.

(** C4. On a heap, [sortHeap] returns the same elements in ascending
    order; when elements of equal priority are equal (a total order) this
    is the one ascending arrangement of the original contents. *)
Theorem sortHeap_sorts_ascending fuel l first last :
  StrictWeakOrder compare →
  valid_range l first last →
  heap_inv compare l first last →
  (Z.to_nat (last - first) ≤ fuel)%nat →
  ∃ l', sortHeap compare fuel l first last = Ok l' ∧
        region l' first last ≡ₚ region l first last ∧
        ascending compare (region l' first last) ∧
        ((∀ a b, compare a b = false → compare b a = false → a = b) →
         ∀ s, s ≡ₚ region l first last → ascending compare s →
              region l' first last = s).
Proof.
  intros Hswo Hv Hheap Hfuel.
  destruct (sortHeap_correct compare fuel l first last Hv Hheap Hfuel)
    as (l' & Hrun & Hasc & Hperm & Hlen & Hout).
  assert (Hreg : region l' first last ≡ₚ region l first last)
    by (apply region_perm; assumption).
  exists l'. split; [assumption|]. split; [assumption|]. split; [assumption|].
  intros Htotal s Hs Hsasc.
  apply (ascending_unique compare); try assumption.
  rewrite Hreg, Hs. reflexivity.
Qed.

(** C5. On a heap of [heapSize] elements, [removeHeap] of a position
    leaves a heap in the first [heapSize-1] positions, moves the element
    of that position to index [heapSize-1], and keeps the number and the
    collection of elements of the range. *)
Theorem removeHeap_moves_to_back fuel l first heapSize position :
  StrictWeakOrder compare →
  valid_range l first (first + heapSize) → 0 ≤ position < heapSize →
  heap_inv compare l first (first + heapSize) →
  (Z.to_nat heapSize ≤ fuel)%nat →
  ∃ l', removeHeap compare fuel l first heapSize position = Ok l' ∧
        heap_inv compare l' first (first + heapSize - 1) ∧
        rd l' (first + heapSize - 1) = rd l (first + position) ∧
        length l' = length l ∧
        region l' first (first + heapSize) ≡ₚ region l first (first + heapSize).
Proof.
  intros Hswo Hv Hp Hheap Hfuel. pose proof Hv as (Hf & Hfl & Hl).
  unfold heap_inv in *.
  replace (first + heapSize - first) with heapSize in Hheap by lia.
  destruct (removeHeap_correct compare fuel l first heapSize position)
    as (l' & Hrun & Hheap' & Hback & Hperm & Hlen & Hout); try assumption.
  exists l'. split; [assumption|].
  split; [replace (first + heapSize - 1 - first) with (heapSize - 1) by lia; assumption|].
  split; [assumption|]. split; [assumption|].
  apply region_perm; assumption.
Qed.

(** Both hold in a heap whose element at [position] was replaced. *)
Lemma reprioritized_heap l first last position x0 :
  StrictWeakOrder compare →
  valid_range l first last → 0 ≤ position < last - first →
  heap_inv compare (upd l (first + position) x0) first last →
  heap_inv_except compare l first last position ∧
  children_below_parent compare l first last position.
Proof.
  intros Hswo (Hf & Hfl & Hl) Hp Hheap.
  destruct (hole_of_heap_upd compare l first 0 (last - first) position x0)
    as [Ha Hb]; try assumption; try lia.
  split.
  - intros c Hc Hne Hpn. apply Ha; lia.
  - intros c x y Hc Hcp Hp0. apply Hb; lia.
Qed.

(** Conversely, a range with these two properties is a heap whose element
    at [position] was replaced: putting back an element of the priority of
    the parent of [position] (of its child of higher priority, for the
    root) gives a heap. *)
Lemma ordered_except_reprioritized l first last position :
  StrictWeakOrder compare →
  valid_range l first last → 0 ≤ position < last - first →
  heap_inv_except compare l first last position →
  children_below_parent compare l first last position →
  ∃ x0, heap_inv compare (upd l (first + position) x0) first last.
Proof.
  intros Hswo (Hf & Hfl & Hl) Hp Hexc Hchild.
  assert (Hrest : ∀ x0 c, 0 < c < last - first → c ≠ position →
            (c - 1) / 2 ≠ position →
            ordered compare (upd l (first + position) x0) first c).
  { intros x0 c Hc Hne Hpn x y. rewrite !rd_upd_ne by lia.
    apply Hexc; assumption. }
  destruct (Z.eq_dec position 0) as [-> | Hpos].
  - (* the root *)
    destruct (Z.lt_ge_cases 1 (last - first)) as [Hone | Hone].
    + destruct (rd_inb l (first + 1)) as [x1 Hx1]; [lia|].
      destruct (Z.lt_ge_cases 2 (last - first)) as [Htwo | Htwo].
      * destruct (rd_inb l (first + 2)) as [x2 Hx2]; [lia|].
        exists (if compare x1 x2 then x2 else x1).
        intros c Hc _.
        destruct (Z.eq_dec c 1) as [-> | ?]; [|destruct (Z.eq_dec c 2) as [-> | ?]].
        -- intros x y. change ((1 - 1) / 2) with 0.
           rewrite rd_upd_eq, rd_upd_ne, Hx1 by lia. intros [= <-] [= <-].
           destruct (compare x1 x2) eqn:E;
             [apply (swo_asym compare); assumption | apply swo_irrefl].
        -- intros x y. change ((2 - 1) / 2) with 0.
           rewrite rd_upd_eq, rd_upd_ne, Hx2 by lia. intros [= <-] [= <-].
           destruct (compare x1 x2) eqn:E; [apply swo_irrefl | assumption].
        -- apply Hrest; lia.
      * exists x1. intros c Hc _. assert (c = 1) as -> by lia.
        intros x y. change ((1 - 1) / 2) with 0.
        rewrite rd_upd_eq, rd_upd_ne, Hx1 by lia. intros [= <-] [= <-].
        apply swo_irrefl.
    + destruct (rd_inb l first) as [x0 Hx0]; [lia|].
      exists x0. intros c Hc _. lia.
  - (* below the root: the element of the parent *)
    destruct (rd_inb l (first + (position - 1) / 2)) as [xq Hq]; [lia|].
    exists xq. intros c Hc _.
    destruct (Z.eq_dec c position) as [-> | Hne].
    + intros x y. rewrite rd_upd_ne, rd_upd_eq, Hq by lia. intros [= <-] [= <-].
      apply swo_irrefl.
    + destruct (Z.eq_dec ((c - 1) / 2) position) as [Hcp | Hpn].
      * intros x y. rewrite Hcp, rd_upd_eq, rd_upd_ne by lia. intros [= <-] Hy.
        apply (Hchild c xq y); try assumption; lia.
      * apply Hrest; assumption.
Qed.

(** [changeHeap] on a range with these two properties returns a heap of
    the same size and elements. *)
Lemma changeHeap_restores_ordered_except fuel l first heapSize position :
  StrictWeakOrder compare →
  valid_range l first (first + heapSize) → 0 ≤ position < heapSize →
  heap_inv_except compare l first (first + heapSize) position →
  children_below_parent compare l first (first + heapSize) position →
  (Z.to_nat heapSize ≤ fuel)%nat →
  ∃ l', changeHeap compare fuel l first heapSize position = Ok l' ∧
        heap_inv compare l' first (first + heapSize) ∧
        isHeap compare fuel l' first (first + heapSize) = Ok true ∧
        length l' = length l ∧
        region l' first (first + heapSize) ≡ₚ region l first (first + heapSize).
Proof.
  intros Hswo Hv Hp Hexc Hchild Hfuel. pose proof Hv as (Hf & Hfl & Hl).
  unfold heap_inv_except, children_below_parent in *.
  replace (first + heapSize - first) with heapSize in Hexc, Hchild by lia.
  destruct (changeHeap_correct compare fuel l first heapSize position)
    as (l' & Hrun & Hheap & Hperm & Hlen & Hout); try assumption; try lia.
  { split.
    - intros c Hc _. apply Hexc. assumption.
    - intros c x y Hc Hcp Hp0 _. apply Hchild; assumption. }
  assert (Hheap' : heap_inv compare l' first (first + heapSize)).
  { unfold heap_inv. replace (first + heapSize - first) with heapSize by lia.
    assumption. }
  exists l'. split; [assumption|]. split; [assumption|]. split.
  { apply isHeap_of_heap; [| rewrite Z.add_simpl_l |]; try assumption.
    apply (valid_range_length l); assumption. }
  split; [assumption|]. apply region_perm; assumption.
Qed.

(** C6. The element at [position] of a heap of [heapSize] elements is
    given a new priority from outside: the range is a heap [l] with any
    [value] stored at any [position].  [changeHeap] returns a heap over
    the whole range, of the same size and with the same elements. *)
Theorem changeHeap_restores_heap fuel l first heapSize position value :
  StrictWeakOrder compare →
  valid_range l first (first + heapSize) → 0 ≤ position < heapSize →
  heap_inv compare l first (first + heapSize) →
  (Z.to_nat heapSize ≤ fuel)%nat →
  ∃ l', changeHeap compare fuel (upd l (first + position) value)
          first heapSize position = Ok l' ∧
        heap_inv compare l' first (first + heapSize) ∧
        isHeap compare fuel l' first (first + heapSize) = Ok true ∧
        length l' = length l ∧
        region l' first (first + heapSize)
          ≡ₚ region (upd l (first + position) value) first (first + heapSize).
Proof.
  intros Hswo Hv Hp Hheap Hfuel. pose proof Hv as (Hf & Hfl & Hl).
  set (l1 := upd l (first + position) value).
  assert (Hv1 : valid_range l1 first (first + heapSize)).
  { apply (valid_range_length l); [apply length_upd | assumption]. }
  destruct (rd_inb l (first + position)) as [x0 Hx0]; [lia|].
  destruct (reprioritized_heap l1 first (first + heapSize) position x0)
    as [Hexc Hchild]; try assumption; try lia.
  { unfold l1. rewrite upd_upd, (upd_same _ _ _ Hx0). assumption. }
  destruct (changeHeap_restores_ordered_except fuel l1 first heapSize position)
    as (l' & Hrun & Hh & His & Hlen & Hperm); try assumption.
  exists l'. split; [assumption|]. split; [assumption|]. split; [assumption|].
  split; [|assumption]. rewrite Hlen. apply length_upd.
Qed.

(** C7. [isHeap_until] returns the first iterator in [(first,last)] whose
    element is of higher priority than the element at its parent
    position, or [last] when there is none; [isHeap] answers true exactly
    when [isHeap_until] returns [last]. *)
Theorem isHeap_until_first_violation fuel l first last :
  valid_range l first last →
  (Z.to_nat (last - first) ≤ fuel)%nat →
  ∃ r, isHeap_until compare fuel l first last = Ok r ∧
       ((r = last ∧ ∀ c, first < c < last → ¬ violates compare l first c) ∨
        (first < r < last ∧ violates compare l first r ∧
         ∀ c, first < c < r → ¬ violates compare l first c)) ∧
       ∃ b, isHeap compare fuel l first last = Ok b ∧ (b = true ↔ r = last).
Proof.
  intros Hv Hfuel.
  destruct (isHeap_until_correct compare fuel l first last Hv Hfuel)
    as (r & Hrun & Hnone & Hr).
  exists r. split; [assumption|]. split.
  - destruct Hr as [->|[Hrange Hviol]]; [left | right]; auto.
  - exists (r =? last). unfold isHeap. rewrite Hrun. split; [reflexivity|].
    apply Z.eqb_eq.
Qed.

(** C8 (amended). After [sortHeap] on a heap, [isHeap] answers false
    exactly when some element of the range is of lower priority than
    another; a range of at most one element, or of elements of one
    priority, is still a heap after sorting. *)
Theorem sortHeap_heap_iff_flat fuel l first last :
  StrictWeakOrder compare →
  valid_range l first last →
  heap_inv compare l first last →
  (Z.to_nat (last - first) ≤ fuel)%nat →
  ∃ l' b, sortHeap compare fuel l first last = Ok l' ∧
          isHeap compare fuel l' first last = Ok b ∧
          (b = false ↔
           ∃ x y, x ∈ region l first last ∧ y ∈ region l first last ∧
                  compare x y = true).
Proof.
  intros Hswo Hv Hheap Hfuel.
  destruct (sortHeap_correct compare fuel l first last Hv Hheap Hfuel)
    as (l' & Hrun & Hasc & Hperm & Hlen & Hout).
  pose proof (valid_range_length _ _ _ _ Hlen Hv) as Hv'.
  assert (Hreg : region l' first last ≡ₚ region l first last)
    by (apply region_perm; assumption).
  destruct (isHeap_correct compare fuel l' first last Hv' Hfuel) as (b & Hb & Hiff).
  exists l', b. split; [assumption|]. split; [assumption|]. split.
  - intros ->.
    destruct (not_heap_lt compare l' first last Hv') as (x & y & Hx & Hy & Hxy).
    { intros H. apply Hiff in H. discriminate. }
    exists x, y. rewrite <- Hreg. auto.
  - intros (x & y & Hx & Hy & Hxy). destruct b; [|reflexivity].
    rewrite <- Hreg in Hx, Hy.
    rewrite (ascending_heap_flat compare l' first last x y) in Hxy;
      try assumption; [discriminate|]. apply Hiff. reflexivity.
Qed.


(** C10. On a range of at most one element the loop test of
    [isHeap_until] fails before the body runs: it returns [last], and
    [isHeap] answers true, whatever the container (even an empty one, in
    which any dereference would be a fault), the comparator and the
    iteration budget. *)
Theorem isHeap_trivial_range fuel l first last :
  last - first ≤ 1 →
  isHeap_until_step compare l last (first, first + 1, 0) = Ok (inr last) ∧
  isHeap_until compare fuel l first last = Ok last ∧
  isHeap compare fuel l first last = Ok true ∧
  isHeap_until compare fuel [] first last = Ok last.
Proof.
  intros Hsmall.
  assert (Hstep : ∀ l', isHeap_until_step compare l' last (first, first + 1, 0)
                        = Ok (inr last)).
  { intros l'. unfold isHeap_until_step.
    destruct (Z.ltb_spec (first + 1) last); [lia | reflexivity]. }
  assert (Hrun : ∀ l', isHeap_until compare fuel l' first last = Ok last).
  { intros l'. unfold isHeap_until. destruct fuel; cbn [iter]; rewrite Hstep; reflexivity. }
  split; [apply Hstep|]. split; [apply Hrun|]. split; [|apply Hrun].
  unfold isHeap. rewrite Hrun. cbn [mbind res_bind]. rewrite Z.eqb_refl. reflexivity.
Qed.

End Specification.

(** ** What the operations keep whatever the order of the elements

    None of these facts needs the heap invariant or any property of the
    comparator: on valid positions the operations only move elements
    around inside the range. *)

Section Preservation.
Context {T : Type} (compare : T → T → bool).
Implicit Types (l : list T) (first last top n p q : Z) (v : T).

Lemma promoteHeap_permutes fuel l first top q v :
  0 ≤ first → 0 ≤ top → 0 ≤ q → first + q < Z.of_nat (length l) →
  (Z.to_nat q ≤ fuel)%nat →
  ∃ l', promoteHeap compare fuel l first top q v = Ok l' ∧
        l' ≡ₚ upd l (first + q) v ∧ length l' = length l ∧
        (∀ j, ¬ (first ≤ j ≤ first + q) → rd l' j = rd l j).
Proof.
  intros Hf Ht Hq Hb Hfuel.
  set (I := fun s : list T * Z =>
    let '(l1, q1) := s in
    length l1 = length l ∧ 0 ≤ q1 ≤ q ∧
    upd l1 (first + q1) v ≡ₚ upd l (first + q) v ∧
    (∀ j, ¬ (first ≤ j ≤ first + q) → rd l1 j = rd l j)).
  destruct (iter_rule (promoteHeap_step compare first top v) I
              (fun s => Z.to_nat (snd s)) I) with (fuel := fuel) (s := (l, q))
    as [[l1 q1] [Hit (Hlen & Hq1 & Hperm & Hout)]].
  - intros [l1 q1] HI. pose proof HI as (Hlen & Hq1 & Hperm & Hout).
    unfold promoteHeap_step. rewrite shiftr_half.
    destruct (Z.gtb_spec q1 top); [|assumption].
    destruct (rd_inb l1 (first + (q1 - 1) / 2)) as [x Hx]; [lia|].
    rewrite Hx, bind_Ok. destruct (compare x v); [|assumption].
    rewrite bind_Ok, wr_inb, bind_Ok by lia.
    split; [|simpl; lia]. unfold I. rewrite length_upd.
    split; [assumption|]. split; [lia|]. split.
    + rewrite <- Hperm. apply upd_hole_perm; [lia | assumption].
    + intros j Hj. rewrite rd_upd_ne by lia. apply Hout. assumption.
  - unfold I. split; [reflexivity|]. split; [lia|]. split; reflexivity.
  - simpl. lia.
  - unfold promoteHeap. rewrite Hit, bind_Ok, wr_inb by lia.
    eexists. split; [reflexivity|]. split; [assumption|].
    split; [rewrite length_upd; assumption|].
    intros j Hj. rewrite rd_upd_ne by lia. apply Hout. assumption.
Qed.

Lemma adjustHeap_permutes fuel l first top n p v :
  0 ≤ first → 0 ≤ top → 0 ≤ p ≤ n →
  first + n ≤ Z.of_nat (length l) → first + p < Z.of_nat (length l) →
  (Z.to_nat n ≤ fuel)%nat →
  ∃ l', adjustHeap compare fuel l first top n p v = Ok l' ∧
        l' ≡ₚ upd l (first + p) v ∧ length l' = length l ∧
        (∀ j, ¬ (first ≤ j < first + n) → j ≠ first + p → rd l' j = rd l j).
Proof.
  intros Hf Ht Hp Hn Hb Hfuel.
  set (I := fun s : list T * Z * Z =>
    let '(l1, q1, c1) := s in
    length l1 = length l ∧ c1 = 2 * q1 + 2 ∧ p ≤ q1 ≤ n ∧
    first + q1 < Z.of_nat (length l) ∧ (q1 < n ∨ q1 = p) ∧
    (∀ w, upd l1 (first + q1) w ≡ₚ upd l (first + p) w) ∧
    (∀ j, ¬ (first ≤ j < first + n) → j ≠ first + p → rd l1 j = rd l j)).
  destruct (iter_rule (adjustHeap_step compare first n) I
              (fun s => Z.to_nat (n - snd s)) (fun s => I s ∧ n ≤ snd s))
    with (fuel := fuel) (s := (l, p, 2 * p + 2))
    as [[[l1 q1] c1] [Hit [(Hlen & -> & Hq1 & Hb1 & Hin & Hperm & Hout) Hexit]]].
  - intros [[l1 q1] c1] HI.
    pose proof HI as (Hlen & -> & Hq1 & Hb1 & Hin & Hperm & Hout).
    unfold adjustHeap_step.
    destruct (Z.ltb_spec (2 * q1 + 2) n); [|split; [assumption | simpl; lia]].
    destruct (rd_inb l1 (first + (2 * q1 + 2))) as [cr Hcr]; [lia|].
    destruct (rd_inb l1 (first + (2 * q1 + 2 - 1))) as [cl Hcl]; [lia|].
    rewrite Hcr, bind_Ok, Hcl, bind_Ok.
    assert (Hmove : ∀ c x, q1 < c < n → rd l1 (first + c) = Ok x →
      I (upd l1 (first + q1) x, c, 2 * c + 2)).
    { intros c x Hc Hx. unfold I. rewrite length_upd.
      split; [assumption|]. split; [reflexivity|]. split; [lia|].
      split; [lia|]. split; [lia|]. split.
      - intros w. rewrite <- Hperm. apply upd_hole_perm; [lia | assumption].
      - intros j Hj Hjp. rewrite rd_upd_ne by lia. apply Hout; assumption. }
    destruct (compare cr cl).
    + rewrite Hcl, bind_Ok, wr_inb, bind_Ok by lia.
      split; [|simpl; lia]. apply Hmove; [lia | assumption].
    + rewrite Hcr, bind_Ok, wr_inb, bind_Ok by lia.
      split; [|simpl; lia]. apply Hmove; [lia | assumption].
  - unfold I. split; [reflexivity|]. split; [reflexivity|]. split; [lia|].
    split; [lia|]. split; [lia|]. split; reflexivity.
  - simpl. lia.
  - simpl in Hexit. unfold adjustHeap. rewrite Hit, bind_Ok.
    destruct (Z.eqb_spec (2 * q1 + 2) n) as [Heq|Hne].
    + destruct (rd_inb l1 (first + (2 * q1 + 2 - 1))) as [x Hx]; [lia|].
      rewrite Hx, bind_Ok, wr_inb, bind_Ok by lia.
      destruct (promoteHeap_permutes fuel (upd l1 (first + q1) x) first top
                  (2 * q1 + 2 - 1) v) as (l' & Hrun & Hperm' & Hlen' & Hout');
        try rewrite length_upd; try lia.
      exists l'. split; [assumption|]. split.
      { rewrite Hperm', <- Hperm. apply upd_hole_perm; [lia | assumption]. }
      split; [rewrite Hlen', length_upd; assumption|].
      intros j Hj Hjp. rewrite Hout' by lia. rewrite rd_upd_ne by lia.
      apply Hout; assumption.
    + rewrite bind_Ok.
      destruct (promoteHeap_permutes fuel l1 first top q1 v)
        as (l' & Hrun & Hperm' & Hlen' & Hout'); try lia.
      exists l'. split; [assumption|]. split; [rewrite Hperm'; apply Hperm|].
      split; [congruence|].
      intros j Hj Hjp. rewrite Hout' by lia. apply Hout; assumption.
Qed.

Lemma pushHeap_permutes fuel l first last :
  valid_range l first last → first < last →
  (Z.to_nat (last - first) ≤ fuel)%nat →
  ∃ l', pushHeap compare fuel l first last = Ok l' ∧
        l' ≡ₚ l ∧ length l' = length l ∧
        (∀ j, ¬ (first ≤ j < last) → rd l' j = rd l j).
Proof.
  intros (Hf & Hfl & Hl) Hne Hfuel. unfold pushHeap.
  destruct (rd_inb l (last - 1)) as [v Hv]; [lia|].
  rewrite Hv, bind_Ok.
  destruct (promoteHeap_permutes fuel l first 0 (last - first - 1) v)
    as (l' & Hrun & Hperm & Hlen & Hout); try lia.
  replace (first + (last - first - 1)) with (last - 1) in Hperm by lia.
  rewrite (upd_same _ _ _ Hv) in Hperm.
  exists l'. split; [assumption|]. split; [assumption|]. split; [assumption|].
  intros j Hj. apply Hout. lia.
Qed.

Lemma popHeap_permutes fuel l first last :
  valid_range l first last → first < last →
  (Z.to_nat (last - first) ≤ fuel)%nat →
  ∃ l', popHeap compare fuel l first last = Ok l' ∧
        l' ≡ₚ l ∧ length l' = length l ∧
        rd l' (last - 1) = rd l first ∧
        (∀ j, ¬ (first ≤ j < last) → rd l' j = rd l j).
Proof.
  intros (Hf & Hfl & Hl) Hne Hfuel. unfold popHeap.
  destruct (rd_inb l (last - 1)) as [v Hv]; [lia|].
  destruct (rd_inb l first) as [r Hr]; [lia|].
  rewrite Hv, bind_Ok, Hr, bind_Ok, wr_inb, bind_Ok by lia.
  destruct (adjustHeap_permutes fuel (upd l (last - 1) r) first 0 (last - first - 1) 0 v)
    as (l' & Hrun & Hperm & Hlen & Hout); try rewrite length_upd; try lia.
  exists l'. split; [assumption|]. split.
  { rewrite Hperm, Z.add_0_r. destruct (decide (first = last - 1)) as [->|Hd].
    - rewrite upd_upd. rewrite (upd_same _ _ _ Hv). reflexivity.
    - apply upd_swap_perm; assumption. }
  split; [rewrite Hlen; apply length_upd|]. split.
  { destruct (decide (first = last - 1)) as [Hd|Hd].
    - (* one element: it is written back over itself *)
      rewrite <- Hd in *. assert (v = r) as -> by congruence.
      rewrite (upd_same _ _ _ Hr) in Hrun.
      rewrite adjustHeap_no_child in Hrun by lia.
      rewrite promoteHeap_stay in Hrun by (left; lia).
      rewrite Z.add_0_r, wr_inb in Hrun by lia. injection Hrun as <-.
      apply rd_upd_eq. lia.
    - rewrite Hout by lia. apply rd_upd_eq. lia. }
  intros j Hj. rewrite Hout by lia. apply rd_upd_ne; lia.
Qed.

Lemma makeHeap_permutes fuel l first last :
  valid_range l first last →
  (Z.to_nat (last - first) ≤ fuel)%nat →
  ∃ l', makeHeap compare fuel l first last = Ok l' ∧
        l' ≡ₚ l ∧ length l' = length l ∧
        (∀ j, ¬ (first ≤ j < last) → rd l' j = rd l j).
Proof.
  intros (Hf & Hfl & Hl) Hfuel. unfold makeHeap.
  destruct (Z.geb_spec (last - first) 2);
    [|exists l; split; [reflexivity|]; split; [reflexivity|]; split; reflexivity].
  rewrite shiftr_half. set (n := last - first) in *.
  set (Q := fun l1 : list T =>
    l1 ≡ₚ l ∧ length l1 = length l ∧
    (∀ j, ¬ (first ≤ j < last) → rd l1 j = rd l j)).
  apply (iter_rule (makeHeap_step compare fuel first n)
           (fun s => Q (fst s) ∧ 0 < snd s ≤ (n - 2) / 2 + 1)
           (fun s => Z.to_nat (snd s)) Q).
  - intros [l1 k] [(Hperm & Hlen & Hout) Hk]. cbn [fst snd] in *. unfold makeHeap_step.
    destruct (rd_inb l1 (first + (k - 1))) as [temp Htemp]; [lia|].
    rewrite Htemp, bind_Ok.
    destruct (adjustHeap_permutes fuel l1 first (k - 1) n (k - 1) temp)
      as (l2 & Hrun & Hperm2 & Hlen2 & Hout2); try lia.
    rewrite Hrun, bind_Ok. rewrite (upd_same _ _ _ Htemp) in Hperm2.
    assert (HQ : Q l2).
    { split; [rewrite Hperm2; assumption|]. split; [congruence|].
      intros j Hj. rewrite Hout2 by lia. apply Hout. assumption. }
    destruct (Z.eqb_spec (k - 1) 0); simpl; [assumption|].
    split; [split; [assumption | lia] | lia].
  - simpl. split; [|lia]. split; [reflexivity|]. split; reflexivity.
  - simpl. lia.
Qed.

Lemma sortHeap_permutes fuel l first last :
  valid_range l first last →
  (Z.to_nat (last - first) ≤ fuel)%nat →
  ∃ l', sortHeap compare fuel l first last = Ok l' ∧
        l' ≡ₚ l ∧ length l' = length l ∧
        (∀ j, ¬ (first ≤ j < last) → rd l' j = rd l j).
Proof.
  intros (Hf & Hfl & Hl) Hfuel. unfold sortHeap.
  set (Q := fun l1 : list T =>
    l1 ≡ₚ l ∧ length l1 = length l ∧
    (∀ j, ¬ (first ≤ j < last) → rd l1 j = rd l j)).
  apply (iter_rule (sortHeap_step compare fuel first)
           (fun s => Q (fst s) ∧ first ≤ snd s ≤ last)
           (fun s => Z.to_nat (snd s - first)) Q).
  - intros [l1 last1] [(Hperm & Hlen & Hout) Hlast]. cbn [fst snd] in *.
    unfold sortHeap_step.
    destruct (Z.gtb_spec (last1 - first) 1); [|split; [assumption|]; split; assumption].
    destruct (popHeap_permutes fuel l1 first last1)
      as (l2 & Hrun & Hperm2 & Hlen2 & _ & Hout2); try lia.
    { repeat split; lia. }
    rewrite Hrun, bind_Ok. simpl. split; [|lia]. split; [|lia].
    split; [rewrite Hperm2; assumption|]. split; [congruence|].
    intros j Hj. rewrite Hout2 by lia. apply Hout. assumption.
  - simpl. split; [|lia]. split; [reflexivity|]. split; reflexivity.
  - simpl. lia.
Qed.

Lemma removeHeap_permutes fuel l first hs p :
  0 ≤ first → first + hs ≤ Z.of_nat (length l) → 0 ≤ p < hs →
  (Z.to_nat hs ≤ fuel)%nat →
  ∃ l', removeHeap compare fuel l first hs p = Ok l' ∧
        l' ≡ₚ l ∧ length l' = length l ∧
        (∀ j, ¬ (first ≤ j < first + hs) → rd l' j = rd l j).
Proof.
  intros Hf Hn Hp Hfuel. unfold removeHeap.
  destruct (rd_inb l (first + hs - 1)) as [v Hv]; [lia|].
  destruct (rd_inb l (first + p)) as [x Hx]; [lia|].
  rewrite Hv, bind_Ok, Hx, bind_Ok, wr_inb, bind_Ok by lia.
  destruct (adjustHeap_permutes fuel (upd l (first + hs - 1) x) first 0 (hs - 1) p v)
    as (l' & Hrun & Hperm & Hlen & Hout); try rewrite length_upd; try lia.
  exists l'. split; [assumption|]. split.
  { rewrite Hperm. destruct (decide (first + p = first + hs - 1)) as [E|E].
    - rewrite E, upd_upd. rewrite (upd_same _ _ _ Hv). reflexivity.
    - rewrite upd_comm by lia. apply upd_swap_perm; assumption. }
  split; [rewrite Hlen; apply length_upd|].
  intros j Hj. rewrite Hout by lia. apply rd_upd_ne; lia.
Qed.

Lemma changeHeap_permutes fuel l first hs p :
  0 ≤ first → first + hs ≤ Z.of_nat (length l) → 0 ≤ p < hs →
  (Z.to_nat hs ≤ fuel)%nat →
  ∃ l', changeHeap compare fuel l first hs p = Ok l' ∧
        l' ≡ₚ l ∧ length l' = length l ∧
        (∀ j, ¬ (first ≤ j < first + hs) → rd l' j = rd l j).
Proof.
  intros Hf Hn Hp Hfuel. unfold changeHeap.
  destruct (removeHeap_permutes fuel l first hs p)
    as (l1 & Hrun & Hperm & Hlen & Hout); try lia.
  rewrite Hrun, bind_Ok.
  destruct (rd_inb l1 (first + hs - 1)) as [v Hv]; [lia|].
  rewrite Hv, bind_Ok.
  destruct (promoteHeap_permutes fuel l1 first 0 (hs - 1) v)
    as (l2 & Hrun2 & Hperm2 & Hlen2 & Hout2); try lia.
  replace (first + (hs - 1)) with (first + hs - 1) in Hperm2 by lia.
  rewrite (upd_same _ _ _ Hv) in Hperm2.
  exists l2. split; [assumption|]. split; [rewrite Hperm2; assumption|].
  split; [congruence|].
  intros j Hj. rewrite Hout2 by lia. apply Hout. assumption.
Qed.

End Preservation.

(** ** More on validation *)

Section Prefix.
Context {T : Type} (compare : T → T → bool).
Implicit Types (l : list T) (first last c r m : Z).

Lemma heap_inv_no_violation l first last :
  heap_inv compare l first last ↔
  ∀ c, first < c < last → ¬ violates compare l first c.
Proof.
  split.
  - intros H c Hc (x & y & Hx & Hy & Hxy).
    assert (compare x y = false); [|congruence].
    apply (H (c - first)); [lia | lia | assumption |].
    replace (first + (c - first)) with c by lia. assumption.
  - intros H c Hc _ x y Hx Hy.
    destruct (compare x y) eqn:Hxy; [|reflexivity].
    exfalso. apply (H (first + c)); [lia|]. exists x, y.
    replace (first + c - first - 1) with (c - 1) by lia. auto.
Qed.

(** [isHeap_until] returns the end of the longest prefix of the range
    that is a heap. *)
Lemma isHeap_until_prefix fuel l first last :
  valid_range l first last →
  (Z.to_nat (last - first) ≤ fuel)%nat →
  ∃ r, isHeap_until compare fuel l first last = Ok r ∧ first ≤ r ≤ last ∧
       ∀ m, first ≤ m ≤ last → (heap_inv compare l first m ↔ m ≤ r).
Proof.
  intros Hv Hfuel.
  destruct (isHeap_until_correct compare fuel l first last Hv Hfuel)
    as (r & Hrun & Hnone & Hr).
  destruct Hv as (Hf & Hfl & Hl).
  exists r. split; [assumption|]. split; [lia|].
  intros m Hm. rewrite heap_inv_no_violation. split.
  - intros H. destruct Hr as [->|[Hrange Hviol]]; [lia|].
    destruct (Z.le_gt_cases m r); [assumption|].
    exfalso. apply (H r); [lia | assumption].
  - intros Hle c Hc. apply Hnone. lia.
Qed.

Lemma land_1 z : Z.land z 1 = z mod 2.
Proof. apply (Z.land_ones z 1). lia. Qed.

(** The alternative [isHeap] decides the heap invariant of the range cut
    to an odd length: the last element of a range of even length is never
    examined. *)
Lemma isHeap_alt_correct fuel l first last :
  valid_range l first last →
  (Z.to_nat (last - first) ≤ fuel)%nat →
  ∃ b, isHeap_alt compare fuel l first last = Ok b ∧
       (b = true ↔
        heap_inv compare l first
          (if Z.land (last - first) 1 =? 0 then last - 1 else last)).
Proof.
  intros (Hf & Hfl & Hl) Hfuel. unfold isHeap_alt.
  set (last' := if Z.land (last - first) 1 =? 0 then last - 1 else last).
  assert (Hodd : (last' - first) mod 2 = 1).
  { unfold last'. rewrite land_1.
    destruct (Z.eqb_spec ((last - first) mod 2) 0); lia. }
  assert (Hle : last' ≤ last).
  { unfold last'. destruct (Z.land (last - first) 1 =? 0); lia. }
  set (I := fun s : Z * Z =>
    let '(parent, child) := s in
    first < child ∧ (child - first) mod 2 = 1 ∧
    parent = first + (child - first - 1) / 2 ∧
    (∀ c, first < c < child → ¬ violates compare l first c)).
  set (Q := fun r : bool + Z * Z =>
    match r with
    | inl b => b = false ∧ ¬ heap_inv compare l first last'
    | inr _ => heap_inv compare l first last'
    end).
  destruct (iter_rule (isHeap_alt_step compare l last') I
              (fun s => Z.to_nat (last' - snd s)) Q)
    with (fuel := fuel) (s := (first, first + 1)) as [r [Hit HQ]].
  - intros [parent child] (Hc & Hpar & -> & Hnone).
    unfold isHeap_alt_step. destruct (Z.ltb_spec child last') as [Hlt|Hge].
    + destruct (rd_inb l (first + (child - first - 1) / 2)) as [x Hx]; [lia|].
      destruct (rd_inb l child) as [y Hy]; [lia|].
      destruct (rd_inb l (child + 1)) as [z Hz]; [lia|].
      rewrite Hx, bind_Ok, Hy, bind_Ok.
      destruct (compare x y) eqn:Hxy.
      { split; [reflexivity|]. rewrite heap_inv_no_violation. intros H.
        apply (H child); [lia|]. exists x, y. auto. }
      rewrite Hz, bind_Ok. destruct (compare x z) eqn:Hxz.
      { split; [reflexivity|]. rewrite heap_inv_no_violation. intros H.
        apply (H (child + 1)); [lia|]. exists x, z.
        replace ((child + 1 - first - 1) / 2) with ((child - first - 1) / 2) by lia.
        auto. }
      split; [|simpl; lia]. split; [lia|]. split; [lia|]. split; [lia|].
      intros c Hcc (x' & y' & Hx' & Hy' & Hcmp).
      destruct (decide (c < child)) as [Hlow|Hhigh].
      { apply (Hnone c); [lia|]. exists x', y'. auto. }
      assert (c = child ∨ c = child + 1) as [-> | ->] by lia.
      * congruence.
      * replace ((child + 1 - first - 1) / 2) with ((child - first - 1) / 2)
          in Hx' by lia. congruence.
    + unfold Q. rewrite heap_inv_no_violation. intros c Hcc. apply Hnone. lia.
  - unfold I. split; [lia|]. split; [replace (first + 1 - first) with 1 by lia; reflexivity|].
    split; [replace (first + 1 - first - 1) with 0 by lia; change (0 / 2) with 0; lia|].
    intros c Hc. lia.
  - simpl. lia.
  - rewrite Hit, bind_Ok. destruct r as [b|[parent child]].
    + destruct HQ as [-> Hnot]. exists false. split; [reflexivity|].
      split; [discriminate | intros H; contradiction].
    + rewrite land_1, Hodd. exists true. split; [reflexivity|].
      split; [intros _; exact HQ | reflexivity].
Qed.

End Prefix.

(** ** A logarithmic number of passes is enough *)


Section Passes.
Context {T : Type} (compare : T → T → bool).
Implicit Types (l : list T) (first last top n p q : Z) (v : T).

(** A loop that returns within its budget returns the same under any
    larger budget. *)
Lemma iter_mono {S R : Type} (step : S → res (S + R)) (k k' : nat) (s : S) (r : R) :
  iter k step s = Ok r → (k ≤ k')%nat → iter k' step s = Ok r.
Proof.
  revert k' s. induction k as [|k IH]; intros k' s; cbn [iter].
  - destruct k'; cbn [iter]; destruct (step s) as [[s'|r']| |]; try discriminate; auto.
  - intros H Hk. destruct k'; [lia|]. cbn [iter].
    destruct (step s) as [[s'|r']| |]; try discriminate; auto.
    apply IH; [assumption | lia].
Qed.







End Passes.

(** ** How the operations relate to each other *)

Section Compose.
Context {T : Type} (compare : T → T → bool).
Implicit Types (l : list T) (first last top n p q : Z) (v : T).

Lemma popHeap_single fuel l first x :
  rd l first = Ok x → popHeap compare fuel l first (first + 1) = Ok l.
Proof.
  intros Hx. pose proof (rd_Ok_inb _ _ _ Hx). unfold popHeap.
  replace (first + 1 - 1) with first by lia.
  rewrite Hx, !bind_Ok, wr_inb, bind_Ok by lia. rewrite (upd_same _ _ _ Hx).
  rewrite adjustHeap_no_child by lia.
  rewrite promoteHeap_stay by (left; lia).
  rewrite Z.add_0_r, wr_inb by lia. rewrite (upd_same _ _ _ Hx). reflexivity.
Qed.

Lemma sortHeap_loop_small (k : nat) fuel l first last :
  last - first ≤ 1 →
  iter k (sortHeap_step compare fuel first) (l, last) = Ok l.
Proof.
  intros H.
  destruct k; cbn [iter]; unfold sortHeap_step;
    destruct (Z.gtb_spec (last - first) 1); try lia; reflexivity.
Qed.

Lemma sortHeap_small fuel l first last :
  last - first ≤ 1 → sortHeap compare fuel l first last = Ok l.
Proof. apply sortHeap_loop_small. Qed.

(** The loop of [sortHeap] and [n] calls of [popHeap] do the same to the
    container; the elements come out of the calls in the reverse of the
    order in which the loop leaves them. *)
Lemma sortHeap_pops fuel first (n : nat) :
  ∀ l last (k : nat),
  valid_range l first last → Z.to_nat (last - first) = n →
  (n ≤ k)%nat → (n ≤ fuel)%nat →
  ∃ l', iter k (sortHeap_step compare fuel first) (l, last) = Ok l' ∧
        pop_n_times compare fuel n l first last
          = Ok (l', rev (region l' first last)) ∧
        length l' = length l ∧
        (∀ j, ¬ (first ≤ j < last) → rd l' j = rd l j).
Proof.
  induction n as [|n IH]; intros l last k (Hf & Hfl & Hl) Hn Hk Hfuel.
  - exists l. split; [apply sortHeap_loop_small; lia|].
    rewrite region_empty by lia. split; [reflexivity|]. split; reflexivity.
  - destruct (decide (n = 0%nat)) as [->|Hn0].
    + assert (last = first + 1) as -> by lia.
      destruct (rd_inb l first) as [x Hx]; [lia|].
      exists l. split; [apply sortHeap_loop_small; lia|].
      cbn [pop_n_times]. rewrite (popHeap_single _ _ _ x Hx), bind_Ok.
      replace (first + 1 - 1) with first by lia. rewrite Hx, !bind_Ok.
      rewrite (region_single l first x Hx).
      split; [reflexivity|]. split; reflexivity.
    + destruct k as [|k]; [lia|].
      destruct (popHeap_permutes compare fuel l first last)
        as (l1 & Hrun & Hperm1 & Hlen1 & Hback & Hout1); try lia.
      { repeat split; lia. }
      destruct (rd_inb l1 (last - 1)) as [x Hx]; [lia|].
      destruct (IH l1 (last - 1) k) as (l' & Hit & Hpops & Hlen & Hout);
        try lia.
      { repeat split; lia. }
      exists l'. split.
      { cbn [iter]. unfold sortHeap_step at 1.
        destruct (Z.gtb_spec (last - first) 1); [|lia].
        rewrite Hrun, bind_Ok. assumption. }
      split.
      { cbn [pop_n_times]. rewrite Hrun, bind_Ok, Hx, bind_Ok, Hpops, bind_Ok.
        rewrite (region_snoc l' first last x); [| lia | lia |].
        - rewrite rev_unit. reflexivity.
        - rewrite Hout by lia. assumption. }
      split; [congruence|].
      intros j Hj. rewrite Hout by lia. apply Hout1. assumption.
Qed.

(** [popHeap] is [removeHeap] of position 0. *)
Lemma popHeap_removeHeap fuel l first last :
  popHeap compare fuel l first last
  = removeHeap compare fuel l first (last - first) 0.
Proof.
  unfold popHeap, removeHeap.
  replace (first + (last - first) - 1) with (last - 1) by lia.
  rewrite Z.add_0_r. reflexivity.
Qed.

(** [changeHeap] is [removeHeap] followed by [pushHeap] on the whole
    range. *)
Lemma changeHeap_removeHeap_pushHeap fuel l first heapSize position :
  changeHeap compare fuel l first heapSize position
  = removeHeap compare fuel l first heapSize position ≫= λ l1,
      pushHeap compare fuel l1 first (first + heapSize).
Proof.
  unfold changeHeap, pushHeap.
  replace (first + heapSize - first - 1) with (heapSize - 1) by lia.
  reflexivity.
Qed.

(** On an empty range [pushHeap] rewrites the element before the range
    with itself. *)
Lemma pushHeap_empty fuel l first a :
  rd l (first - 1) = Ok a → pushHeap compare fuel l first first = Ok l.
Proof.
  intros Ha. pose proof (rd_Ok_inb _ _ _ Ha). unfold pushHeap.
  rewrite Ha, bind_Ok. rewrite promoteHeap_stay by (left; lia).
  replace (first + (first - first - 1)) with (first - 1) by lia.
  rewrite wr_inb by lia. rewrite (upd_same _ _ _ Ha). reflexivity.
Qed.

(** On an empty range [popHeap] exchanges the element before the range
    with the element at [first]. *)
Lemma popHeap_empty fuel l first a b :
  rd l (first - 1) = Ok a → rd l first = Ok b →
  popHeap compare fuel l first first
  = Ok (upd (upd l (first - 1) b) first a).
Proof.
  intros Ha Hb. pose proof (rd_Ok_inb _ _ _ Ha). pose proof (rd_Ok_inb _ _ _ Hb).
  unfold popHeap. rewrite Ha, bind_Ok, Hb, bind_Ok, wr_inb, bind_Ok by lia.
  rewrite adjustHeap_no_child by lia.
  rewrite promoteHeap_stay by (left; lia).
  rewrite Z.add_0_r, wr_inb by (rewrite length_upd; lia). reflexivity.
Qed.





End Compose.

(** ** Sifting down and up again in a heap *)

Section Idempotence.
Context {T : Type} (compare : T → T → bool) `{!StrictWeakOrder compare}.
Implicit Types (l : list T) (first last top n p q c : Z) (v w x g : T).

Lemma runs_exit {S R : Type} (step : S → res (S + R)) s r :
  step s = Ok (inr r) → runs step s r.
Proof. intros H. exists 0%nat. cbn [iter]. rewrite H. reflexivity. Qed.

Lemma runs_step {S R : Type} (step : S → res (S + R)) s s' r :
  step s = Ok (inl s') → runs step s' r → runs step s r.
Proof.
  intros H [k Hk]. exists (Datatypes.S k). cbn [iter]. rewrite H. assumption.
Qed.

Lemma runs_det {S R : Type} (step : S → res (S + R)) s r r' (k : nat) :
  runs step s r → iter k step s = Ok r' → r = r'.
Proof.
  intros [k0 Hk0] Hk.
  pose proof (iter_mono step k0 (Nat.max k0 k) s r Hk0 (Nat.le_max_l _ _)) as H1.
  pose proof (iter_mono step k (Nat.max k0 k) s r' Hk (Nat.le_max_r _ _)) as H2.
  congruence.
Qed.

(** The hypotheses shared by the lemmas of this section: the order is
    total (elements of equal priority are equal), and the positions are
    in the container. *)
Section Total.
Variables (first n top : Z) (v : T).
Hypothesis Htotal : ∀ a b : T, compare a b = false → compare b a = false → a = b.
Hypothesis Hfirst : 0 ≤ first.
Hypothesis Htop : 0 ≤ top.

(** From the child [c] of [q] up to [q]. *)
Lemma settles_lift l q c w x l3 q3 :
  first + n ≤ Z.of_nat (length l) → top ≤ q → 0 < c < n → (c - 1) / 2 = q →
  rd l (first + q) = Ok w → rd l (first + c) = Ok x →
  compare v w = false → compare w x = false →
  settles compare first top v (upd l (first + q) x) c x l3 q3 →
  settles compare first top v l q w l3 q3.
Proof.
  intros Hn Htq Hc Hcq Hw Hx Hvw Hwx Hsub.
  assert (Hvx : compare v x = false) by (eapply (swo_nlt_trans compare); eassumption).
  assert (Hback : upd (upd l (first + q) x) (first + c) x = upd l (first + q) x).
  { apply upd_same. rewrite rd_upd_ne by lia. assumption. }
  assert (Hstop : ∀ g, compare x v = false →
    upd (upd (upd l (first + q) x) (first + c) g) (first + c) v = upd l (first + q) v ∧
    compare w v = false).
  { intros g Hxv. assert (x = v) as -> by (apply Htotal; assumption).
    split; [|assumption]. rewrite upd_upd. exact Hback. }
  destruct Hsub as [(l4 & q4 & Hrun & Heq & Hxv) | (g & Hcont)].
  - left. exists l4, q4. split; [assumption|].
    destruct (Hstop x Hxv) as [Heq' Hwv]. rewrite upd_upd in Heq'.
    split; [congruence | assumption].
  - set (l2 := upd (upd l (first + q) x) (first + c) g) in *.
    assert (Hread : rd l2 (first + (c - 1) / 2) = Ok x).
    { rewrite Hcq. unfold l2. rewrite rd_upd_ne by lia. apply rd_upd_eq. lia. }
    destruct (compare x v) eqn:Hxv.
    + right. exists x. intros r Hr. apply Hcont.
      eapply runs_step; [|exact Hr].
      unfold promoteHeap_step. rewrite shiftr_half.
      destruct (Z.gtb_spec c top); [|lia].
      rewrite Hread, bind_Ok, Hxv, bind_Ok, wr_inb, bind_Ok
        by (unfold l2; rewrite !length_upd; lia).
      unfold l2. rewrite upd_upd, Hback, Hcq. reflexivity.
    + left. exists l2, c. split.
      * apply Hcont. apply runs_exit.
        unfold promoteHeap_step. rewrite shiftr_half.
        destruct (Z.gtb_spec c top); [|lia].
        rewrite Hread, bind_Ok, Hxv. reflexivity.
      * apply Hstop. reflexivity.
Qed.

(** The descent from a hole at [q] in a heap, followed by the promotion
    of a value that is not of lower priority than the element at [q]. *)
Lemma descent_settles (m : nat) :
  ∀ l q w,
  (Z.to_nat (n - q) ≤ m)%nat →
  first + n ≤ Z.of_nat (length l) → top ≤ q < n →
  heap_from compare l first q n →
  rd l (first + q) = Ok w → compare v w = false →
  ∃ l3 q3 (k : nat),
    adjustHeap_descent compare k l first n q = Ok (l3, q3) ∧
    settles compare first top v l q w l3 q3.
Proof.
  induction m as [|m IH]; intros l q w Hm Hn Hq Hheap Hw Hvw; [lia|].
  assert (Hhere : settles compare first top v l q w l q).
  { right. exists w. rewrite (upd_same _ _ _ Hw). auto. }
  (* moving the hole to a child [c] and descending from there *)
  assert (Hchild : ∀ c x, 0 < c < n → (c - 1) / 2 = q → rd l (first + c) = Ok x →
    ∀ l3 q3, settles compare first top v (upd l (first + q) x) c x l3 q3 → settles compare first top v l q w l3 q3).
  { intros c x Hc Hcq Hx l3 q3 Hsub.
    apply (settles_lift l q c w x); try assumption; try lia.
    apply (Hheap c); [lia | lia | rewrite Hcq; assumption | assumption]. }
  assert (Hdeeper : ∀ c x, 0 < c < n → (c - 1) / 2 = q → rd l (first + c) = Ok x →
    ∃ l3 q3 (k : nat),
      adjustHeap_descent compare k (upd l (first + q) x) first n c = Ok (l3, q3) ∧
      settles compare first top v (upd l (first + q) x) c x l3 q3).
  { intros c x Hc Hcq Hx. apply IH; try rewrite length_upd; try lia.
    - intros d Hd Htd y z Hy Hz. rewrite rd_upd_ne in Hy, Hz by lia.
      apply (Hheap d); [lia | lia | assumption | assumption].
    - rewrite rd_upd_ne by lia. assumption.
    - apply (swo_nlt_trans compare v w x); [assumption|].
      apply (Hheap c); [lia | lia | rewrite Hcq; assumption | assumption]. }
  destruct (Z.lt_ge_cases (2 * q + 2) n) as [Htwo|Hfew].
  - (* two children: one pass of the loop *)
    destruct (rd_inb l (first + (2 * q + 2))) as [cr Hcr]; [lia|].
    destruct (rd_inb l (first + (2 * q + 2 - 1))) as [cl Hcl]; [lia|].
    assert (Hpass : ∀ c x, c = (if compare cr cl then 2 * q + 2 - 1 else 2 * q + 2) →
      rd l (first + c) = Ok x →
      ∀ k, adjustHeap_descent compare (Datatypes.S k) l first n q
           = adjustHeap_descent compare k (upd l (first + q) x) first n c).
    { intros c x Hcdef Hx k. unfold adjustHeap_descent. cbn [iter].
      unfold adjustHeap_step at 1.
      destruct (Z.ltb_spec (2 * q + 2) n); [|lia].
      rewrite Hcr, bind_Ok, Hcl, bind_Ok. cbv zeta. rewrite <- Hcdef.
      rewrite Hx, bind_Ok, wr_inb, bind_Ok by lia. reflexivity. }
    destruct (compare cr cl) eqn:Hcmp.
    + destruct (Hdeeper (2 * q + 2 - 1) cl) as (l3 & q3 & k & Hrun & Hsub);
        try assumption; try lia.
      exists l3, q3, (Datatypes.S k). split.
      * rewrite (Hpass (2 * q + 2 - 1) cl); auto.
      * apply (Hchild (2 * q + 2 - 1) cl); try assumption; lia.
    + destruct (Hdeeper (2 * q + 2) cr) as (l3 & q3 & k & Hrun & Hsub);
        try assumption; try lia.
      exists l3, q3, (Datatypes.S k). split.
      * rewrite (Hpass (2 * q + 2) cr); auto.
      * apply (Hchild (2 * q + 2) cr); try assumption; lia.
  - assert (Hloop : iter 0 (adjustHeap_step compare first n) (l, q, 2 * q + 2)
                    = Ok (l, q, 2 * q + 2)).
    { cbn [iter]. unfold adjustHeap_step.
      destruct (Z.ltb_spec (2 * q + 2) n); [lia | reflexivity]. }
    destruct (Z.eqb_spec (2 * q + 2) n) as [Hlone|Hnone].
    + (* a lone left child *)
      destruct (rd_inb l (first + (2 * q + 2 - 1))) as [x Hx]; [lia|].
      exists (upd l (first + q) x), (2 * q + 2 - 1), 0%nat. split.
      * unfold adjustHeap_descent. rewrite Hloop, bind_Ok.
        destruct (Z.eqb_spec (2 * q + 2) n); [|lia].
        rewrite Hx, bind_Ok, wr_inb, bind_Ok by lia. reflexivity.
      * apply (Hchild (2 * q + 2 - 1) x); try assumption; try lia.
        right. exists x. rewrite upd_same; [auto|].
        rewrite rd_upd_ne by lia. assumption.
    + (* no child *)
      exists l, q, 0%nat. split; [|assumption].
      unfold adjustHeap_descent. rewrite Hloop, bind_Ok.
      destruct (Z.eqb_spec (2 * q + 2) n); [lia | reflexivity].
Qed.

End Total.

Lemma adjustHeap_descent_mono (k k' : nat) l first n p l3 q3 :
  adjustHeap_descent compare k l first n p = Ok (l3, q3) → (k ≤ k')%nat →
  adjustHeap_descent compare k' l first n p = Ok (l3, q3).
Proof.
  unfold adjustHeap_descent. intros H Hle.
  destruct (iter k _ _) as [[[l1 q1] c1]| |] eqn:E; try discriminate.
  rewrite (iter_mono _ _ _ _ _ E Hle). assumption.
Qed.

(** In a heap, under a total order, [adjustHeap] at [position] with
    [topPosition = position] and the element of that position changes
    nothing. *)
Lemma adjustHeap_heap_noop fuel l first n p v :
  (∀ a b : T, compare a b = false → compare b a = false → a = b) →
  0 ≤ first → first + n ≤ Z.of_nat (length l) → 0 ≤ p < n →
  heap_from compare l first p n → rd l (first + p) = Ok v →
  (Z.to_nat n ≤ fuel)%nat →
  adjustHeap compare fuel l first p n p v = Ok l.
Proof.
  intros Htotal Hf Hn Hp Hheap Hv Hfuel.
  destruct (descent_settles first n p v Htotal Hf (proj1 Hp) (Z.to_nat (n - p)) l p v)
    as (l3 & q3 & k & Hdown & Hsettle); try assumption; try lia.
  { apply swo_irrefl. }
  destruct (adjustHeap_returns compare fuel l first p n p v) as (l' & Hrun & _);
    try lia.
  rewrite Hrun. f_equal. rewrite adjustHeap_unfold in Hrun.
  destruct (adjustHeap_descent compare fuel l first n p) as [[la qa]| |] eqn:Efuel;
    try discriminate.
  assert ((la, qa) = (l3, q3)) as [= -> ->].
  { pose proof (adjustHeap_descent_mono _ _ _ _ _ _ _ _ Efuel (Nat.le_max_l fuel k)).
    pose proof (adjustHeap_descent_mono _ _ _ _ _ _ _ _ Hdown (Nat.le_max_r fuel k)).
    congruence. }
  rewrite bind_Ok in Hrun. unfold promoteHeap in Hrun.
  destruct (iter fuel _ _) as [[l4 q4]| |] eqn:Eup; try discriminate.
  rewrite bind_Ok in Hrun. apply wr_Ok in Hrun as [_ ->].
  destruct Hsettle as [(l4' & q4' & Hruns & Heq & _) | (g & Hcont)].
  - pose proof (runs_det _ _ _ _ _ Hruns Eup) as [= <- <-].
    rewrite Heq. apply upd_same. assumption.
  - assert (Hruns : runs (promoteHeap_step compare first p v) (l3, q3)
                      (upd l (first + p) g, p)).
    { apply Hcont. apply runs_exit. unfold promoteHeap_step.
      destruct (Z.gtb_spec p p); [lia | reflexivity]. }
    pose proof (runs_det _ _ _ _ _ Hruns Eup) as [= <- <-].
    rewrite upd_upd. apply upd_same. assumption.
Qed.

(** Under a total order [makeHeap] returns a heap as it is. *)
Lemma makeHeap_heap_noop fuel l first last :
  (∀ a b : T, compare a b = false → compare b a = false → a = b) →
  valid_range l first last → heap_inv compare l first last →
  (Z.to_nat (last - first) ≤ fuel)%nat →
  makeHeap compare fuel l first last = Ok l.
Proof.
  intros Htotal (Hf & Hfl & Hl) Hheap Hfuel.
  destruct (Z.lt_ge_cases (last - first) 2); [apply makeHeap_small; assumption|].
  unfold makeHeap. destruct (Z.geb_spec (last - first) 2); [|lia].
  rewrite shiftr_half. set (n := last - first) in *.
  destruct (iter_rule (makeHeap_step compare fuel first n)
              (fun s => fst s = l ∧ 0 < snd s ≤ (n - 2) / 2 + 1)
              (fun s => Z.to_nat (snd s)) (fun l' => l' = l))
    with (fuel := fuel) (s := (l, (n - 2) / 2 + 1)) as [l' [Hit ->]].
  - intros [l1 k] [Hl1 Hk]. cbn [fst snd] in *. subst l1. unfold makeHeap_step.
    destruct (rd_inb l (first + (k - 1))) as [temp Htemp]; [lia|].
    rewrite Htemp, bind_Ok.
    rewrite adjustHeap_heap_noop; try assumption; try lia.
    + rewrite bind_Ok. destruct (Z.eqb_spec (k - 1) 0); simpl; [reflexivity|].
      split; [split; [reflexivity | lia] | lia].
    + intros c Hc Ht. apply Hheap; lia.
  - cbn [fst snd]. split; [reflexivity | lia].
  - cbn [snd]. lia.
  - assumption.
Qed.

End Idempotence.

(** ** A [Distance] that holds twice the heap size

    When the type holds [2 * heapSize], no position that [adjustHeap]
    computes is out of its range, and the call is the one with an
    unbounded [Distance]. *)

Section Width.
Context {T : Type} (compare : T → T → bool).
Implicit Types (l : list T) (bits first heapSize position : Z).

Lemma to_Distance_fits bits z :
  - 2 ^ (bits - 1) ≤ z < 2 ^ (bits - 1) → to_Distance bits z = z.
Proof.
  intros Hz. unfold to_Distance.
  assert (Hb : 0 ≤ bits - 1).
  { destruct (Z.lt_ge_cases (bits - 1) 0) as [Hneg | ?]; [|assumption].
    rewrite (Z.pow_neg_r 2 (bits - 1) Hneg) in Hz. lia. }
  replace bits with (Z.succ (bits - 1)) at 2 by lia.
  rewrite Z.pow_succ_r by assumption.
  rewrite Z.mod_small by lia. lia.
Qed.

Lemma adjustHeap_step_in_fits bits first heapSize l p c :
  2 ≤ c → 2 * heapSize < 2 ^ (bits - 1) →
  adjustHeap_step_in compare bits first heapSize (l, p, c)
  = adjustHeap_step compare first heapSize (l, p, c).
Proof.
  intros Hc Hw. unfold adjustHeap_step_in, adjustHeap_step.
  destruct (Z.ltb_spec c heapSize) as [Hlt | ?]; [|reflexivity].
  rewrite (to_Distance_fits bits (c - 1)) by lia.
  destruct (rd l (first + c)) as [x | |]; try reflexivity.
  destruct (rd l (first + (c - 1))) as [y | |]; try reflexivity.
  cbn. destruct (compare x y); rewrite to_Distance_fits by lia; reflexivity.
Qed.

Lemma adjustHeap_step_next first heapSize l p c l' p' c' :
  adjustHeap_step compare first heapSize (l, p, c) = Ok (inl (l', p', c')) →
  c < heapSize ∧ (p' = c ∨ p' = c - 1) ∧ c' = 2 * p' + 2.
Proof.
  unfold adjustHeap_step.
  destruct (Z.ltb_spec c heapSize) as [Hlt | ?]; [|discriminate].
  destruct (rd l (first + c)) as [x | |]; try discriminate.
  destruct (rd l (first + (c - 1))) as [y | |]; try discriminate.
  cbn. destruct (compare x y).
  - destruct (rd l (first + (c - 1))) as [z | |]; try discriminate. cbn.
    destruct (wr l (first + p) z) as [l1 | |]; try discriminate. cbn.
    intros [= <- <- <-]. lia.
  - destruct (rd l (first + c)) as [z | |]; try discriminate. cbn.
    destruct (wr l (first + p) z) as [l1 | |]; try discriminate. cbn.
    intros [= <- <- <-]. lia.
Qed.

Lemma adjustHeap_loop_in_fits bits first heapSize fuel : ∀ l p c,
  2 ≤ c → 2 * heapSize < 2 ^ (bits - 1) →
  iter fuel (adjustHeap_step_in compare bits first heapSize) (l, p, c)
  = iter fuel (adjustHeap_step compare first heapSize) (l, p, c).
Proof.
  induction fuel as [|fuel IH]; intros l p c Hc Hw; cbn [iter];
    rewrite adjustHeap_step_in_fits by assumption;
    destruct (adjustHeap_step compare first heapSize (l, p, c))
      as [[[[l' p'] c'] | r] | |] eqn:E; try reflexivity.
  destruct (adjustHeap_step_next _ _ _ _ _ _ _ _ E) as (_ & Hp' & ->).
  apply IH; lia.
Qed.

(** With a [Distance] that holds [2 * heapSize], [adjustHeap] is the call
    with an unbounded [Distance]. *)
Lemma adjustHeap_in_fits bits fuel l first topPosition heapSize position value :
  0 ≤ position < heapSize → 2 * heapSize < 2 ^ (bits - 1) →
  adjustHeap_in compare bits fuel l first topPosition heapSize position value
  = adjustHeap compare fuel l first topPosition heapSize position value.
Proof.
  intros Hp Hw. unfold adjustHeap_in, adjustHeap.
  rewrite (to_Distance_fits bits (2 * position + 2)) by lia.
  rewrite adjustHeap_loop_in_fits by (assumption || lia).
  destruct (iter fuel (adjustHeap_step compare first heapSize)
              (l, position, 2 * position + 2)) as [[[l1 p1] c1] | |];
    try reflexivity.
  cbn. destruct (Z.eqb_spec c1 heapSize) as [-> | ?]; [|reflexivity].
  rewrite to_Distance_fits by lia. reflexivity.
Qed.

End Width.

(** ** Further properties of the operations *)

Section Further.
Context {T : Type} (compare : T → T → bool).
Implicit Types (l : list T) (first last position topPosition : Z) (value : T).

Lemma isHeap_small fuel l first last :
  last - first ≤ 1 → isHeap compare fuel l first last = Ok true.
Proof.
  intros H. unfold isHeap, isHeap_until.
  assert (Hit : iter fuel (isHeap_until_step compare l last) (first, first + 1, 0)
                = Ok last).
  { destruct fuel; cbn [iter]; unfold isHeap_until_step;
      destruct (Z.ltb_spec (first + 1) last); try lia; reflexivity. }
  rewrite Hit, bind_Ok, Z.eqb_refl. reflexivity.
Qed.

Lemma rearranges_intro l l' first last (r : res (list T)) :
  valid_range l first last →
  r = Ok l' → l' ≡ₚ l → length l' = length l →
  (∀ j, ¬ (first ≤ j < last) → rd l' j = rd l j) →
  rearranges l first last r.
Proof.
  intros Hv Hr Hperm Hlen Hout. exists l'. split; [assumption|].
  split; [assumption|]. split; [apply region_perm; assumption | assumption].
Qed.

(** X1. [promoteHeap] from the last position inserts any value into the
    heap that precedes it. *)
Theorem promoteHeap_inserts fuel l first last value :
  StrictWeakOrder compare →
  valid_range l first last → first < last →
  heap_inv compare l first (last - 1) →
  (Z.to_nat (last - first) ≤ fuel)%nat →
  ∃ l', promoteHeap compare fuel l first 0 (last - first - 1) value = Ok l' ∧
        heap_inv compare l' first last ∧
        region l' first last ≡ₚ region l first (last - 1) ++ [value] ∧
        (∀ j, ¬ (first ≤ j < last) → rd l' j = rd l j).
Proof.
  intros Hswo Hv Hne Hheap Hfuel. pose proof Hv as (Hf & Hfl & Hl).
  unfold heap_inv in *.
  destruct (promoteHeap_correct compare fuel l first 0 (last - first)
              (last - first - 1) value)
    as (l' & Hrun & Hh & Hperm & Hlen & Hout); try lia.
  { apply desc_zero. lia. }
  { apply hole_last. replace (last - first - 1) with (last - 1 - first) by lia.
    assumption. }
  { intros c y Hc Hcp. lia. }
  replace (first + (last - first - 1)) with (last - 1) in Hperm by lia.
  assert (Hout' : ∀ j, ¬ (first ≤ j < last) → rd l' j = rd l j).
  { intros j Hj. apply Hout. lia. }
  exists l'. split; [assumption|]. split; [assumption|]. split; [|assumption].
  rewrite (region_perm (upd l (last - 1) value) l' first last).
  - rewrite (region_snoc _ first last value) by (try apply rd_upd_eq; lia).
    assert (E : region (upd l (last - 1) value) first (last - 1)
                = region l first (last - 1)).
    { apply region_ext; [lia|]. intros j Hj. apply rd_upd_ne; lia. }
    rewrite E. reflexivity.
  - unfold valid_range. rewrite length_upd. auto.
  - assumption.
  - intros j Hj. rewrite Hout' by assumption. symmetry. apply rd_upd_ne; lia.
Qed.

(** X2. Called with a signed [Distance] of [bits] bits that holds twice
    the heap size, [adjustHeap] from the top replaces the element at any
    position of a heap by any value and restores the heap. *)
Theorem adjustHeap_replaces bits fuel l first last position value :
  StrictWeakOrder compare →
  valid_range l first last → 0 ≤ position < last - first →
  2 * (last - first) < 2 ^ (bits - 1) →
  heap_inv compare l first last →
  (Z.to_nat (last - first) ≤ fuel)%nat →
  ∃ l', adjustHeap_in compare bits fuel l first 0 (last - first) position value
          = Ok l' ∧
        heap_inv compare l' first last ∧
        region l' first last ≡ₚ region (upd l (first + position) value) first last ∧
        (∀ j, ¬ (first ≤ j < last) → rd l' j = rd l j).
Proof.
  intros Hswo Hv Hp Hw Hheap Hfuel. pose proof Hv as (Hf & Hfl & Hl).
  rewrite adjustHeap_in_fits by assumption.
  destruct (adjustHeap_correct compare fuel l first 0 (last - first) position value)
    as (l' & Hrun & Hh & Hperm & Hlen & Hout); try lia.
  { apply desc_zero. lia. }
  { apply hole_of_heap; try assumption; lia. }
  assert (Hout' : ∀ j, ¬ (first ≤ j < last) → rd l' j = rd l j).
  { intros j Hj. apply Hout. lia. }
  exists l'. split; [assumption|]. split; [assumption|]. split; [|assumption].
  apply region_perm; [unfold valid_range; rewrite length_upd; auto | assumption |].
  intros j Hj. rewrite Hout' by assumption. symmetry. apply rd_upd_ne; lia.
Qed.

(** X3. Called with a signed [Distance] of [bits] bits that holds twice
    the heap size: when the subtrees below [position] are heaps,
    [adjustHeap] with [topPosition = position] and the element of that
    position makes the subtree rooted at [position] a heap, and touches
    nothing before [position]: the step of [makeHeap]. *)
Theorem adjustHeap_heapifies_subtree bits fuel l first last position value :
  StrictWeakOrder compare →
  valid_range l first last → 0 ≤ position < last - first →
  2 * (last - first) < 2 ^ (bits - 1) →
  heap_from compare l first (position + 1) (last - first) →
  rd l (first + position) = Ok value →
  (Z.to_nat (last - first) ≤ fuel)%nat →
  ∃ l', adjustHeap_in compare bits fuel l first position (last - first) position
          value = Ok l' ∧
        heap_from compare l' first position (last - first) ∧
        region l' first last ≡ₚ region l first last ∧
        (∀ j, ¬ (first + position ≤ j < last) → rd l' j = rd l j).
Proof.
  intros Hswo Hv Hp Hw Hheap Hval Hfuel. pose proof Hv as (Hf & Hfl & Hl).
  rewrite adjustHeap_in_fits by assumption.
  destruct (adjustHeap_correct compare fuel l first position (last - first)
              position value)
    as (l' & Hrun & Hh & Hperm & Hlen & Hout); try lia.
  { constructor. }
  { split.
    - intros c Hc Ht Hne Hpn. apply Hheap; lia.
    - intros c x y Hc Hcp Hp0 Ht. lia. }
  rewrite (upd_same _ _ _ Hval) in Hperm.
  assert (Hout' : ∀ j, ¬ (first + position ≤ j < last) → rd l' j = rd l j).
  { intros j Hj. apply Hout. lia. }
  exists l'. split; [assumption|]. split; [assumption|]. split; [|assumption].
  apply region_perm; try assumption. intros j Hj. apply Hout'. lia.
Qed.

(** X4. Whatever the order of the elements and the comparator,
    [promoteHeap], and [adjustHeap] called with a signed [Distance] of
    [bits] bits that holds twice the heap size, return the container with
    [value] stored at [position] and the elements of the range moved
    around: nothing is lost or duplicated, nothing outside the range is
    written. *)
Theorem primitives_permute fuel l first last topPosition position value :
  valid_range l first last → 0 ≤ topPosition → 0 ≤ position < last - first →
  (Z.to_nat (last - first) ≤ fuel)%nat →
  (∃ l', promoteHeap compare fuel l first topPosition position value = Ok l' ∧
         l' ≡ₚ upd l (first + position) value ∧
         (∀ j, ¬ (first ≤ j ≤ first + position) → rd l' j = rd l j)) ∧
  (∀ bits, 2 * (last - first) < 2 ^ (bits - 1) →
   ∃ l', adjustHeap_in compare bits fuel l first topPosition (last - first)
           position value = Ok l' ∧
         l' ≡ₚ upd l (first + position) value ∧
         (∀ j, ¬ (first ≤ j < last) → rd l' j = rd l j)).
Proof.
  intros (Hf & Hfl & Hl) Ht Hp Hfuel. split.
  - destruct (promoteHeap_permutes compare fuel l first topPosition position value)
      as (l' & Hrun & Hperm & _ & Hout); try lia. eauto.
  - intros bits Hw. rewrite adjustHeap_in_fits by assumption.
    destruct (adjustHeap_permutes compare fuel l first topPosition (last - first)
                position value)
      as (l' & Hrun & Hperm & _ & Hout); try lia.
    exists l'. split; [assumption|]. split; [assumption|].
    intros j Hj. apply Hout; lia.
Qed.

(** X5. Whatever the order of the elements and the comparator, every
    operation that writes returns the elements of the range in some order
    in the range and leaves the rest of the container as it was. *)
Theorem operations_rearrange fuel l first last :
  valid_range l first last →
  (Z.to_nat (last - first) ≤ fuel)%nat →
  rearranges l first last (makeHeap compare fuel l first last) ∧
  rearranges l first last (sortHeap compare fuel l first last) ∧
  (first < last →
     rearranges l first last (pushHeap compare fuel l first last) ∧
     rearranges l first last (popHeap compare fuel l first last)) ∧
  (∀ position, 0 ≤ position < last - first →
     rearranges l first last
       (removeHeap compare fuel l first (last - first) position) ∧
     rearranges l first last
       (changeHeap compare fuel l first (last - first) position)).
Proof.
  intros Hv Hfuel. pose proof Hv as (Hf & Hfl & Hl). split.
  { destruct (makeHeap_permutes compare fuel l first last Hv Hfuel)
      as (l' & ? & ? & ? & ?). eapply rearranges_intro; eassumption. }
  split.
  { destruct (sortHeap_permutes compare fuel l first last Hv Hfuel)
      as (l' & ? & ? & ? & ?). eapply rearranges_intro; eassumption. }
  split.
  { intros Hne. split.
    - destruct (pushHeap_permutes compare fuel l first last Hv Hne Hfuel)
        as (l' & ? & ? & ? & ?). eapply rearranges_intro; eassumption.
    - destruct (popHeap_permutes compare fuel l first last Hv Hne Hfuel)
        as (l' & ? & ? & ? & _ & ?). eapply rearranges_intro; eassumption. }
  intros position Hp. split.
  - destruct (removeHeap_permutes compare fuel l first (last - first) position)
      as (l' & ? & ? & ? & Hout); try lia.
    eapply rearranges_intro; try eassumption.
    intros j Hj. apply Hout. lia.
  - destruct (changeHeap_permutes compare fuel l first (last - first) position)
      as (l' & ? & ? & ? & Hout); try lia.
    eapply rearranges_intro; try eassumption.
    intros j Hj. apply Hout. lia.
Qed.

(** X6. [makeHeap] followed by [sortHeap] sorts any range: the result is
    ascending, holds the elements of the range, and the rest of the
    container is as it was. *)
Theorem makeHeap_then_sortHeap_sorts fuel l first last :
  StrictWeakOrder compare →
  valid_range l first last →
  (Z.to_nat (last - first) ≤ fuel)%nat →
  ∃ l1 l2, makeHeap compare fuel l first last = Ok l1 ∧
           sortHeap compare fuel l1 first last = Ok l2 ∧
           ascending compare (region l2 first last) ∧
           region l2 first last ≡ₚ region l first last ∧
           (∀ j, ¬ (first ≤ j < last) → rd l2 j = rd l j).
Proof.
  intros Hswo Hv Hfuel.
  destruct (makeHeap_correct compare fuel l first last Hv Hfuel)
    as (l1 & Hrun1 & Hheap & Hperm1 & Hlen1 & Hout1).
  pose proof (valid_range_length _ _ _ _ Hlen1 Hv) as Hv1.
  destruct (sortHeap_correct compare fuel l1 first last Hv1 Hheap Hfuel)
    as (l2 & Hrun2 & Hasc & Hperm2 & Hlen2 & Hout2).
  exists l1, l2. split; [assumption|]. split; [assumption|]. split; [assumption|].
  split.
  - rewrite (region_perm l1 l2), (region_perm l l1); auto.
  - intros j Hj. rewrite Hout2 by assumption. apply Hout1. assumption.
Qed.

(** X7. Whatever the order of the elements, [sortHeap] leaves the
    container that as many calls of [popHeap] as the range has elements
    leave, and the elements extracted by those calls are the sorted range
    read backwards. *)
Theorem sortHeap_is_repeated_popHeap fuel l first last :
  valid_range l first last →
  (Z.to_nat (last - first) ≤ fuel)%nat →
  ∃ l', sortHeap compare fuel l first last = Ok l' ∧
        pop_n_times compare fuel (Z.to_nat (last - first)) l first last
          = Ok (l', rev (region l' first last)).
Proof.
  intros Hv Hfuel.
  destruct (sortHeap_pops compare fuel first (Z.to_nat (last - first)) l last fuel)
    as (l' & Hit & Hpops & _); auto.
  exists l'. split; assumption.
Qed.

(** X8. After [makeHeap] on a range that is not empty, the element at
    [first] is an element of the range that is not of lower priority than
    any other. *)
Theorem makeHeap_front_is_maximum fuel l first last :
  StrictWeakOrder compare →
  valid_range l first last → first < last →
  (Z.to_nat (last - first) ≤ fuel)%nat →
  ∃ l' r, makeHeap compare fuel l first last = Ok l' ∧
          rd l' first = Ok r ∧ r ∈ region l first last ∧
          ∀ x, x ∈ region l first last → compare r x = false.
Proof.
  intros Hswo Hv Hne Hfuel. pose proof Hv as (Hf & Hfl & Hl).
  destruct (makeHeap_correct compare fuel l first last Hv Hfuel)
    as (l' & Hrun & Hheap & Hperm & Hlen & Hout).
  destruct (rd_inb l' first) as [r Hr]; [lia|].
  assert (Hreg : region l' first last ≡ₚ region l first last)
    by (apply region_perm; assumption).
  exists l', r. split; [assumption|]. split; [assumption|]. split.
  - rewrite <- Hreg. apply elem_of_region; [lia|]. exists first. split; [lia | assumption].
  - intros x Hx. rewrite <- Hreg in Hx.
    apply elem_of_region in Hx as (j & Hj & Hxj); [|lia].
    apply (heap_root_max compare l' first (last - first) r) with (k := j - first);
      try assumption; try lia.
    replace (first + (j - first)) with j by lia. assumption.
Qed.

(** X9. Replacing the top: after [popHeap] on a heap, storing a new value
    at [last-1] and calling [pushHeap] gives a heap of the former elements
    with the former root exchanged for the new value. *)
Theorem popHeap_replace_pushHeap fuel l first last value :
  StrictWeakOrder compare →
  valid_range l first last → first < last →
  heap_inv compare l first last →
  (Z.to_nat (last - first) ≤ fuel)%nat →
  ∃ l1 l2 l3 r,
    rd l first = Ok r ∧
    popHeap compare fuel l first last = Ok l1 ∧
    wr l1 (last - 1) value = Ok l2 ∧
    pushHeap compare fuel l2 first last = Ok l3 ∧
    heap_inv compare l3 first last ∧
    region l3 first last ++ [r] ≡ₚ region l first last ++ [value].
Proof.
  intros Hswo Hv Hne Hheap Hfuel. pose proof Hv as (Hf & Hfl & Hl).
  destruct (rd_inb l first) as [r Hr]; [lia|].
  destruct (popHeap_correct compare fuel l first last r Hv Hne Hheap Hr Hfuel)
    as (l1 & Hrun1 & Hback & Hheap1 & Hperm1 & Hlen1 & Hout1).
  set (l2 := upd l1 (last - 1) value).
  assert (Hv2 : valid_range l2 first last).
  { unfold valid_range, l2. rewrite length_upd, Hlen1. auto. }
  assert (Hsame : region l2 first (last - 1) = region l1 first (last - 1)).
  { apply region_ext; [lia|]. intros j Hj. apply rd_upd_ne; lia. }
  destruct (pushHeap_correct compare fuel l2 first last)
    as (l3 & Hrun3 & Hheap3 & Hperm3 & Hlen3 & Hout3); try assumption.
  { apply (heap_from_ext compare l1); [lia | | assumption].
    intros j Hj. apply rd_upd_ne; lia. }
  exists l1, l2, l3, r. split; [assumption|]. split; [assumption|].
  split; [apply wr_inb; lia|]. split; [assumption|]. split; [assumption|].
  rewrite (region_perm l2 l3) by assumption.
  rewrite (region_snoc l2 first last value) by (try apply rd_upd_eq; lia).
  rewrite Hsame.
  rewrite <- (region_perm l l1 first last) by assumption.
  rewrite (region_snoc l1 first last r) by (assumption || lia).
  rewrite <- !app_assoc. f_equiv. apply Permutation_swap.
Qed.

(** X10. [isHeap_until] returns the end of the longest prefix of the
    range that satisfies the heap invariant, and [isHeap] decides the
    invariant of the whole range. *)
Theorem isHeap_until_longest_prefix fuel l first last :
  valid_range l first last →
  (Z.to_nat (last - first) ≤ fuel)%nat →
  ∃ r, isHeap_until compare fuel l first last = Ok r ∧ first ≤ r ≤ last ∧
       (∀ m, first ≤ m ≤ last → (heap_inv compare l first m ↔ m ≤ r)) ∧
       ∃ b, isHeap compare fuel l first last = Ok b ∧
            (b = true ↔ heap_inv compare l first last).
Proof.
  intros Hv Hfuel.
  destruct (isHeap_until_prefix compare fuel l first last Hv Hfuel)
    as (r & Hrun & Hr & Hprefix).
  exists r. split; [assumption|]. split; [assumption|]. split; [assumption|].
  apply isHeap_correct; assumption.
Qed.

(** X11. The alternative [isHeap] of the comment is not the [isHeap] in
    use: on a range of odd length the two agree, on a range of even
    length the alternative is [isHeap] of the range without its last
    element, which it never examines. *)
Theorem isHeap_alt_skips_last fuel l first last :
  valid_range l first last →
  (Z.to_nat (last - first) ≤ fuel)%nat →
  (Z.odd (last - first) = true →
     isHeap_alt compare fuel l first last = isHeap compare fuel l first last) ∧
  (Z.even (last - first) = true →
     isHeap_alt compare fuel l first last
     = isHeap compare fuel l first (last - 1)).
Proof.
  intros Hv Hfuel. pose proof Hv as (Hf & Hfl & Hl).
  destruct (isHeap_alt_correct compare fuel l first last Hv Hfuel) as (b & Hb & Hiff).
  rewrite land_1, Zmod_even in Hiff. rewrite Hb.
  assert (Hagree : ∀ last', first ≤ last' ≤ last →
    (b = true ↔ heap_inv compare l first last') →
    Ok b = isHeap compare fuel l first last').
  { intros last' Hl' Hiff'.
    destruct (isHeap_correct compare fuel l first last') as (b' & Hb' & Hiff'');
      [repeat split; lia | lia |].
    rewrite Hb'. f_equal. destruct b, b'; try reflexivity.
    - symmetry. apply Hiff'', Hiff'. reflexivity.
    - apply Hiff', Hiff''. reflexivity. }
  split.
  - intros Hodd. rewrite <- Z.negb_even in Hodd.
    destruct (Z.even (last - first)); [discriminate|].
    apply Hagree; [lia | assumption].
  - intros Heven. rewrite Heven in Hiff. cbn [Z.eqb] in Hiff.
    destruct (decide (first = last)) as [->|Hne].
    + rewrite isHeap_small by lia. f_equal. apply Hiff. intros c Hc. lia.
    + apply Hagree; [lia | assumption].
Qed.

(** X12. Cases in which nothing moves, under any iteration budget:
    [popHeap] on a single element; [pushHeap] when the new element is
    alone or not of higher priority than its parent; [removeHeap] of the
    last position of a heap. *)
Theorem operations_leave_in_place fuel l first last :
  valid_range l first last → first < last →
  (last - first = 1 → popHeap compare fuel l first last = Ok l) ∧
  (last - first = 1 ∨ ordered compare l first (last - first - 1) →
     pushHeap compare fuel l first last = Ok l) ∧
  (heap_inv compare l first last →
     removeHeap compare fuel l first (last - first) (last - first - 1) = Ok l).
Proof.
  intros (Hf & Hfl & Hl) Hne.
  destruct (rd_inb l (last - 1)) as [v Hv]; [lia|].
  assert (Hstay : last - first = 1 ∨ ordered compare l first (last - first - 1) →
    promoteHeap compare fuel l first 0 (last - first - 1) v = Ok l).
  { intros H. rewrite promoteHeap_stay.
    - replace (first + (last - first - 1)) with (last - 1) by lia.
      rewrite wr_inb by lia. rewrite (upd_same _ _ _ Hv). reflexivity.
    - destruct H as [H|H]; [left; lia|].
      destruct (decide (last - first - 1 ≤ 0)); [left; assumption | right].
      destruct (rd_inb l (first + (last - first - 1 - 1) / 2)) as [x Hx]; [lia|].
      exists x. split; [assumption|]. apply (H x v); [assumption|].
      replace (first + (last - first - 1)) with (last - 1) by lia. assumption. }
  split; [|split].
  - intros H1. destruct (rd_inb l first) as [x Hx]; [lia|].
    replace last with (first + 1) by lia. apply (popHeap_single _ _ _ _ x Hx).
  - intros H. unfold pushHeap. rewrite Hv, bind_Ok. apply Hstay. assumption.
  - intros Hheap.
    rewrite (removeHeap_last compare fuel l first (last - first) v);
      [| lia | replace (first + (last - first) - 1) with (last - 1) by lia; assumption].
    apply Hstay. destruct (decide (last - first = 1)); [left; assumption | right].
    apply Hheap; lia.
Qed.

(** X13. On an empty range [makeHeap] and [sortHeap] return the container
    as it is.  [pushHeap] and [popHeap] dereference [last - 1], the
    element before the range: [pushHeap] rewrites it with itself,
    [popHeap] exchanges it with the element at [first]; at the start of
    the container that dereference is out of the container. *)
Theorem empty_range_behaviour fuel l first :
  0 ≤ first ≤ Z.of_nat (length l) →
  makeHeap compare fuel l first first = Ok l ∧
  sortHeap compare fuel l first first = Ok l ∧
  (∀ a, rd l (first - 1) = Ok a →
     pushHeap compare fuel l first first = Ok l ∧
     ∀ b, rd l first = Ok b →
       popHeap compare fuel l first first
       = Ok (upd (upd l (first - 1) b) first a)) ∧
  (first = 0 →
     pushHeap compare fuel l first first = Fault ∧
     popHeap compare fuel l first first = Fault).
Proof.
  intros Hf. split; [apply makeHeap_small; lia|].
  split; [apply sortHeap_small; lia|]. split.
  - intros a Ha. split; [eapply pushHeap_empty; eassumption|].
    intros b Hb. apply popHeap_empty; assumption.
  - intros ->. split; reflexivity.
Qed.


(** X15. [popHeap] is [removeHeap] of position 0, and [changeHeap] is
    [removeHeap] followed by [pushHeap] on the whole range; on every
    input, faults included. *)
Theorem popHeap_is_removeHeap_front fuel l first last heapSize position :
  popHeap compare fuel l first last
  = removeHeap compare fuel l first (last - first) 0 ∧
  changeHeap compare fuel l first heapSize position
  = removeHeap compare fuel l first heapSize position ≫= λ l1,
      pushHeap compare fuel l1 first (first + heapSize).
Proof.
  split; [apply popHeap_removeHeap | apply changeHeap_removeHeap_pushHeap].
Qed.

(** X16. When elements of equal priority are equal (a total order),
    [makeHeap] returns a range that is already a heap exactly as it is;
    so calling [makeHeap] twice gives what calling it once gives. *)
Theorem makeHeap_idempotent fuel l first last :
  StrictWeakOrder compare →
  (∀ a b : T, compare a b = false → compare b a = false → a = b) →
  valid_range l first last →
  (Z.to_nat (last - first) ≤ fuel)%nat →
  (heap_inv compare l first last → makeHeap compare fuel l first last = Ok l) ∧
  ∃ l1, makeHeap compare fuel l first last = Ok l1 ∧
        makeHeap compare fuel l1 first last = Ok l1.
Proof.
  intros Hswo Htotal Hv Hfuel. split.
  - intros Hheap. apply makeHeap_heap_noop; assumption.
  - destruct (makeHeap_correct compare fuel l first last Hv Hfuel)
      as (l1 & Hrun & Hheap & _ & Hlen & _).
    exists l1. split; [assumption|].
    apply makeHeap_heap_noop; try assumption.
    apply (valid_range_length l); assumption.
Qed.

End Further.

(** ** The theorems at work on vectors of integers *)

Ltac range_tac := unfold valid_range; simpl; lia.

Ltac heap_tac n :=
  apply (isHeap_true_heap Z.ltb n); [range_tac | simpl; lia | vm_compute; reflexivity].

(** The scenarios of the specification. *)
Example make_scenario :
  makeHeap Z.ltb 8 [3; 1; 4; 1; 5; 9; 2; 6] 0 8 = Ok [9; 6; 4; 1; 5; 3; 2; 1] ∧
  isHeap Z.ltb 8 [9; 6; 4; 1; 5; 3; 2; 1] 0 8 = Ok true ∧
  pop_n_times Z.ltb 8 8 [9; 6; 4; 1; 5; 3; 2; 1] 0 8
    = Ok ([1; 1; 2; 3; 4; 5; 6; 9], [9; 6; 5; 4; 3; 2; 1; 1]).
Proof. vm_compute. auto. Qed.

Example push_scenario :
  pushHeap Z.ltb 8 [9; 6; 5; 4; 3; 2; 1; 7] 0 8 = Ok [9; 7; 5; 6; 3; 2; 1; 4] ∧
  isHeap Z.ltb 8 [9; 7; 5; 6; 3; 2; 1; 4] 0 8 = Ok true.
Proof. vm_compute. auto. Qed.

Example remove_scenario :
  removeHeap Z.ltb 7 [9; 6; 5; 4; 3; 2; 1] 0 7 3 = Ok [9; 6; 5; 1; 3; 2; 4] ∧
  isHeap Z.ltb 7 [9; 6; 5; 1; 3; 2; 4] 0 6 = Ok true.
Proof. vm_compute. auto. Qed.

Lemma makeHeap_establishes_heap_witness :
  valid_range [3; 1; 4; 1; 5; 9; 2; 6] 0 8 ∧
  ∃ l', makeHeap Z.ltb 8 [3; 1; 4; 1; 5; 9; 2; 6] 0 8 = Ok l' ∧
        heap_inv Z.ltb l' 0 8 ∧
        isHeap_until Z.ltb 8 l' 0 8 = Ok 8 ∧
        isHeap Z.ltb 8 l' 0 8 = Ok true ∧
        region l' 0 8 ≡ₚ region [3; 1; 4; 1; 5; 9; 2; 6] 0 8 ∧
        (8 - 0 < 2 → l' = [3; 1; 4; 1; 5; 9; 2; 6]).
Proof.
  split; [range_tac|].
  apply (makeHeap_establishes_heap Z.ltb 8 [3; 1; 4; 1; 5; 9; 2; 6] 0 8);
    [apply Zltb_swo | range_tac | simpl; lia].
Defined.

Lemma popHeap_extracts_maximum_witness :
  heap_inv Z.ltb [9; 6; 4; 1; 5; 3; 2; 1] 0 8 ∧
  ∃ l' r, rd [9; 6; 4; 1; 5; 3; 2; 1] 0 = Ok r ∧
          popHeap Z.ltb 8 [9; 6; 4; 1; 5; 3; 2; 1] 0 8 = Ok l' ∧
          rd l' (8 - 1) = Ok r ∧
          (∀ x, x ∈ region [9; 6; 4; 1; 5; 3; 2; 1] 0 8 → Z.ltb r x = false) ∧
          heap_inv Z.ltb l' 0 (8 - 1) ∧
          region l' 0 (8 - 1) ++ [r] ≡ₚ region [9; 6; 4; 1; 5; 3; 2; 1] 0 8 ∧
          ∃ l'' xs,
            pop_n_times Z.ltb 8 (Z.to_nat (8 - 0)) [9; 6; 4; 1; 5; 3; 2; 1] 0 8
              = Ok (l'', xs) ∧
            xs ≡ₚ region [9; 6; 4; 1; 5; 3; 2; 1] 0 8 ∧ descending Z.ltb xs.
Proof.
  assert (H : heap_inv Z.ltb [9; 6; 4; 1; 5; 3; 2; 1] 0 8) by heap_tac 8%nat.
  split; [exact H|].
  apply (popHeap_extracts_maximum Z.ltb 8 [9; 6; 4; 1; 5; 3; 2; 1] 0 8);
    [apply Zltb_swo | range_tac | lia | exact H | simpl; lia].
Defined.

Lemma pushHeap_restores_heap_witness :
  heap_inv Z.ltb [9; 6; 5; 4; 3; 2; 1; 7] 0 (8 - 1) ∧
  ∃ l', pushHeap Z.ltb 8 [9; 6; 5; 4; 3; 2; 1; 7] 0 8 = Ok l' ∧
        heap_inv Z.ltb l' 0 8 ∧
        isHeap Z.ltb 8 l' 0 8 = Ok true ∧
        region l' 0 8 ≡ₚ region [9; 6; 5; 4; 3; 2; 1; 7] 0 8.
Proof.
  assert (H : heap_inv Z.ltb [9; 6; 5; 4; 3; 2; 1; 7] 0 (8 - 1)) by heap_tac 8%nat.
  split; [exact H|].
  apply (pushHeap_restores_heap Z.ltb 8 [9; 6; 5; 4; 3; 2; 1; 7] 0 8);
    [apply Zltb_swo | range_tac | lia | exact H | simpl; lia].
Defined.

Lemma sortHeap_sorts_ascending_witness :
  heap_inv Z.ltb [9; 6; 4; 1; 5; 3; 2; 1] 0 8 ∧
  ∃ l', sortHeap Z.ltb 8 [9; 6; 4; 1; 5; 3; 2; 1] 0 8 = Ok l' ∧
        region l' 0 8 ≡ₚ region [9; 6; 4; 1; 5; 3; 2; 1] 0 8 ∧
        ascending Z.ltb (region l' 0 8) ∧
        ((∀ a b, Z.ltb a b = false → Z.ltb b a = false → a = b) →
         ∀ s, s ≡ₚ region [9; 6; 4; 1; 5; 3; 2; 1] 0 8 → ascending Z.ltb s →
              region l' 0 8 = s).
Proof.
  assert (H : heap_inv Z.ltb [9; 6; 4; 1; 5; 3; 2; 1] 0 8) by heap_tac 8%nat.
  split; [exact H|].
  apply (sortHeap_sorts_ascending Z.ltb 8 [9; 6; 4; 1; 5; 3; 2; 1] 0 8);
    [apply Zltb_swo | range_tac | exact H | simpl; lia].
Defined.

Lemma removeHeap_moves_to_back_witness :
  heap_inv Z.ltb [9; 6; 5; 4; 3; 2; 1] 0 (0 + 7) ∧
  ∃ l', removeHeap Z.ltb 7 [9; 6; 5; 4; 3; 2; 1] 0 7 3 = Ok l' ∧
        heap_inv Z.ltb l' 0 (0 + 7 - 1) ∧
        rd l' (0 + 7 - 1) = rd [9; 6; 5; 4; 3; 2; 1] (0 + 3) ∧
        length l' = length [9; 6; 5; 4; 3; 2; 1] ∧
        region l' 0 (0 + 7) ≡ₚ region [9; 6; 5; 4; 3; 2; 1] 0 (0 + 7).
Proof.
  assert (H : heap_inv Z.ltb [9; 6; 5; 4; 3; 2; 1] 0 (0 + 7)) by heap_tac 7%nat.
  split; [exact H|].
  apply (removeHeap_moves_to_back Z.ltb 7 [9; 6; 5; 4; 3; 2; 1] 0 7 3);
    [apply Zltb_swo | range_tac | lia | exact H | simpl; lia].
Defined.

(** The contract of [changeHeap] matters.  Every comparison of
    [5; 0; 4; 9; 8; 1] that does not involve position 1 is in order (5
    against 4, 4 against 1), but the range is not a heap with a changed
    element at position 1: the children 9 and 8 of that position are above
    its parent 5, so that no element at position 1 makes the range a heap.
    On it [changeHeap] at position 1 returns [5; 9; 4; 1; 8; 0], where 9
    sits below 5. *)
Example changeHeap_needs_former_heap :
  valid_range [5; 0; 4; 9; 8; 1] 0 (0 + 6) ∧
  heap_inv_except Z.ltb [5; 0; 4; 9; 8; 1] 0 (0 + 6) 1 ∧
  (∀ x0, ¬ heap_inv Z.ltb (upd [5; 0; 4; 9; 8; 1] (0 + 1) x0) 0 (0 + 6)) ∧
  changeHeap Z.ltb 6 [5; 0; 4; 9; 8; 1] 0 6 1 = Ok [5; 9; 4; 1; 8; 0] ∧
  isHeap Z.ltb 6 [5; 9; 4; 1; 8; 0] 0 (0 + 6) = Ok false ∧
  ¬ heap_inv Z.ltb [5; 9; 4; 1; 8; 0] 0 (0 + 6).
Proof.
  split; [range_tac|]. split.
  { intros c Hc Hne Hpn x y Hx Hy.
    assert (c = 2 ∨ c = 5) as [-> | ->] by lia;
      vm_compute in Hx, Hy; injection Hx as <-; injection Hy as <-; reflexivity. }
  split.
  { intros x0 H.
    assert (H1 : Z.ltb 5 x0 = false) by (apply (H 1); [lia | simpl; lia | reflexivity..]).
    assert (H3 : Z.ltb x0 9 = false) by (apply (H 3); [lia | simpl; lia | reflexivity..]).
    apply Z.ltb_ge in H1, H3. lia. }
  split; [vm_compute; reflexivity|]. split; [vm_compute; reflexivity|].
  intros H.
  destruct (isHeap_of_heap Z.ltb 6 [5; 9; 4; 1; 8; 0] 0 (0 + 6)) as [_ H'];
    [range_tac | simpl; lia | exact H |].
  vm_compute in H'. discriminate.
Qed.

Lemma changeHeap_restores_heap_witness :
  heap_inv Z.ltb [9; 6; 5; 4; 3; 2; 1] 0 (0 + 7) ∧
  ∃ l', changeHeap Z.ltb 7 (upd [9; 6; 5; 4; 3; 2; 1] (0 + 1) 0) 0 7 1 = Ok l' ∧
        heap_inv Z.ltb l' 0 (0 + 7) ∧
        isHeap Z.ltb 7 l' 0 (0 + 7) = Ok true ∧
        length l' = length [9; 6; 5; 4; 3; 2; 1] ∧
        region l' 0 (0 + 7)
          ≡ₚ region (upd [9; 6; 5; 4; 3; 2; 1] (0 + 1) 0) 0 (0 + 7).
Proof.
  assert (H : heap_inv Z.ltb [9; 6; 5; 4; 3; 2; 1] 0 (0 + 7)) by heap_tac 7%nat.
  split; [exact H|].
  apply (changeHeap_restores_heap Z.ltb 7 [9; 6; 5; 4; 3; 2; 1] 0 7 1 0);
    [apply Zltb_swo | range_tac | lia | exact H | simpl; lia].
Defined.

Lemma isHeap_until_first_violation_witness :
  valid_range [9; 6; 5; 4; 7; 2; 8] 0 7 ∧
  ∃ r, isHeap_until Z.ltb 7 [9; 6; 5; 4; 7; 2; 8] 0 7 = Ok r ∧
       ((r = 7 ∧ ∀ c, 0 < c < 7 → ¬ violates Z.ltb [9; 6; 5; 4; 7; 2; 8] 0 c) ∨
        (0 < r < 7 ∧ violates Z.ltb [9; 6; 5; 4; 7; 2; 8] 0 r ∧
         ∀ c, 0 < c < r → ¬ violates Z.ltb [9; 6; 5; 4; 7; 2; 8] 0 c)) ∧
       ∃ b, isHeap Z.ltb 7 [9; 6; 5; 4; 7; 2; 8] 0 7 = Ok b ∧ (b = true ↔ r = 7).
Proof.
  split; [range_tac|].
  apply (isHeap_until_first_violation Z.ltb 7 [9; 6; 5; 4; 7; 2; 8] 0 7);
    [range_tac | simpl; lia].
Defined.

Example isHeap_until_example :
  isHeap_until Z.ltb 7 [9; 6; 5; 4; 7; 2; 8] 0 7 = Ok 4.
Proof. vm_compute. reflexivity. Qed.

(** C8, as stated, fails: a heap of elements of one priority is still a
    heap after [sortHeap], and so is a heap of a single element. *)
Lemma sortHeap_result_still_heap :
  isHeap Z.ltb 2 [7; 7] 0 2 = Ok true ∧
  sortHeap Z.ltb 2 [7; 7] 0 2 = Ok [7; 7] ∧
  isHeap Z.ltb 2 [7; 7] 0 2 ≠ Ok false ∧
  isHeap Z.ltb 1 [7] 0 1 = Ok true ∧
  sortHeap Z.ltb 1 [7] 0 1 = Ok [7].
Proof. vm_compute. repeat split; try reflexivity. discriminate. Qed.

Lemma sortHeap_heap_iff_flat_witness :
  heap_inv Z.ltb [9; 6; 4; 1; 5; 3; 2; 1] 0 8 ∧
  ∃ l' b, sortHeap Z.ltb 8 [9; 6; 4; 1; 5; 3; 2; 1] 0 8 = Ok l' ∧
          isHeap Z.ltb 8 l' 0 8 = Ok b ∧
          (b = false ↔
           ∃ x y, x ∈ region [9; 6; 4; 1; 5; 3; 2; 1] 0 8 ∧
                  y ∈ region [9; 6; 4; 1; 5; 3; 2; 1] 0 8 ∧ Z.ltb x y = true).
Proof.
  assert (H : heap_inv Z.ltb [9; 6; 4; 1; 5; 3; 2; 1] 0 8) by heap_tac 8%nat.
  split; [exact H|].
  apply (sortHeap_heap_iff_flat Z.ltb 8 [9; 6; 4; 1; 5; 3; 2; 1] 0 8);
    [apply Zltb_swo | range_tac | exact H | simpl; lia].
Defined.


Lemma isHeap_trivial_range_witness :
  3 - 2 ≤ 1 ∧
  isHeap_until_step Z.ltb [5; 8; 1] 3 (2, 2 + 1, 0) = Ok (inr 3) ∧
  isHeap_until Z.ltb 0 [5; 8; 1] 2 3 = Ok 3 ∧
  isHeap Z.ltb 0 [5; 8; 1] 2 3 = Ok true ∧
  isHeap_until Z.ltb 0 [] 2 3 = Ok 3.
Proof.
  split; [lia|].
  apply (isHeap_trivial_range Z.ltb 0 [5; 8; 1] 2 3). lia.
Defined.

(** The further properties on vectors of integers. *)

Lemma promoteHeap_inserts_witness :
  heap_inv Z.ltb [9; 6; 5; 0] 0 (4 - 1) ∧
  ∃ l', promoteHeap Z.ltb 4 [9; 6; 5; 0] 0 0 (4 - 0 - 1) 7 = Ok l' ∧
        heap_inv Z.ltb l' 0 4 ∧
        region l' 0 4 ≡ₚ region [9; 6; 5; 0] 0 (4 - 1) ++ [7] ∧
        (∀ j, ¬ (0 ≤ j < 4) → rd l' j = rd [9; 6; 5; 0] j).
Proof.
  assert (H : heap_inv Z.ltb [9; 6; 5; 0] 0 (4 - 1)) by heap_tac 4%nat.
  split; [exact H|].
  apply (promoteHeap_inserts Z.ltb 4 [9; 6; 5; 0] 0 4 7);
    [apply Zltb_swo | range_tac | lia | exact H | simpl; lia].
Defined.

Lemma adjustHeap_replaces_witness :
  heap_inv Z.ltb [9; 6; 5; 4; 3; 2; 1] 0 7 ∧
  2 * (7 - 0) < 2 ^ (8 - 1) ∧
  ∃ l', adjustHeap_in Z.ltb 8 7 [9; 6; 5; 4; 3; 2; 1] 0 0 (7 - 0) 1 0 = Ok l' ∧
        heap_inv Z.ltb l' 0 7 ∧
        region l' 0 7 ≡ₚ region (upd [9; 6; 5; 4; 3; 2; 1] (0 + 1) 0) 0 7 ∧
        (∀ j, ¬ (0 ≤ j < 7) → rd l' j = rd [9; 6; 5; 4; 3; 2; 1] j).
Proof.
  assert (H : heap_inv Z.ltb [9; 6; 5; 4; 3; 2; 1] 0 7) by heap_tac 7%nat.
  split; [exact H|]. split; [simpl; lia|].
  apply (adjustHeap_replaces Z.ltb 8 7 [9; 6; 5; 4; 3; 2; 1] 0 7 1 0);
    [apply Zltb_swo | range_tac | lia | simpl; lia | exact H | simpl; lia].
Defined.

Lemma adjustHeap_heapifies_subtree_witness :
  heap_from Z.ltb [1; 6; 5; 4; 3; 2; 0] 0 (0 + 1) (7 - 0) ∧
  2 * (7 - 0) < 2 ^ (8 - 1) ∧
  ∃ l', adjustHeap_in Z.ltb 8 7 [1; 6; 5; 4; 3; 2; 0] 0 0 (7 - 0) 0 1 = Ok l' ∧
        heap_from Z.ltb l' 0 0 (7 - 0) ∧
        region l' 0 7 ≡ₚ region [1; 6; 5; 4; 3; 2; 0] 0 7 ∧
        (∀ j, ¬ (0 + 0 ≤ j < 7) → rd l' j = rd [1; 6; 5; 4; 3; 2; 0] j).
Proof.
  assert (H : heap_from Z.ltb [1; 6; 5; 4; 3; 2; 0] 0 (0 + 1) (7 - 0)).
  { intros c Hc Ht x y Hx Hy.
    assert (c = 3 ∨ c = 4 ∨ c = 5 ∨ c = 6) as [-> | [-> | [-> | ->]]] by lia;
      vm_compute in Hx, Hy; injection Hx as <-; injection Hy as <-; reflexivity. }
  split; [exact H|]. split; [simpl; lia|].
  apply (adjustHeap_heapifies_subtree Z.ltb 8 7 [1; 6; 5; 4; 3; 2; 0] 0 7 0 1);
    [apply Zltb_swo | range_tac | lia | simpl; lia | exact H | reflexivity
    | simpl; lia].
Defined.

Lemma primitives_permute_witness :
  (∃ l', promoteHeap Z.ltb 5 [3; 1; 4; 1; 5] 0 0 2 7 = Ok l' ∧
         l' ≡ₚ upd [3; 1; 4; 1; 5] (0 + 2) 7 ∧
         (∀ j, ¬ (0 ≤ j ≤ 0 + 2) → rd l' j = rd [3; 1; 4; 1; 5] j)) ∧
  (2 * (5 - 0) < 2 ^ (8 - 1) ∧
   ∃ l', adjustHeap_in Z.ltb 8 5 [3; 1; 4; 1; 5] 0 0 (5 - 0) 2 7 = Ok l' ∧
         l' ≡ₚ upd [3; 1; 4; 1; 5] (0 + 2) 7 ∧
         (∀ j, ¬ (0 ≤ j < 5) → rd l' j = rd [3; 1; 4; 1; 5] j)).
Proof.
  destruct (primitives_permute Z.ltb 5 [3; 1; 4; 1; 5] 0 5 0 2 7)
    as [Hpromote Hadjust]; [range_tac | lia | lia | simpl; lia |].
  split; [exact Hpromote|].
  assert (Hw : 2 * (5 - 0) < 2 ^ (8 - 1)) by (simpl; lia).
  split; [exact Hw | exact (Hadjust 8 Hw)].
Defined.

(** The width matters.  With [Distance = signed char] (8 bits), a heap of
    64 elements that starts at offset 129 of its container, and position
    63, [(2 * position) + 2] is 128 and wraps to -128: the loop reads
    before the range, moves the hole to offset 129 - 128 = 1 of the
    container and from there down the heap from its root.  The element 63
    of the heap ends before the range, at offset 1, and the range holds 0
    twice.  With a [Distance] that holds 128 the call only stores [value]
    in the last position. *)
Example adjustHeap_signed_char_wraps :
  let l := replicate 129 0 ++ (Z.of_nat <$> reverse (seq 1 64)) in
  heap_inv Z.ltb l 129 193 ∧
  2 * (193 - 129) = 2 ^ (8 - 1) ∧
  adjustHeap Z.ltb 64 l 129 0 64 63 0 = Ok (upd l 192 0) ∧
  adjustHeap_in Z.ltb 9 64 l 129 0 64 63 0 = Ok (upd l 192 0) ∧
  ∃ l', adjustHeap_in Z.ltb 8 64 l 129 0 64 63 0 = Ok l' ∧
        rd l 1 = Ok 0 ∧ rd l' 1 = Ok 63 ∧
        rd l 130 = Ok 63 ∧ 63 ∉ region l' 129 193.
Proof.
  intros l. split; [heap_tac 64%nat|]. split; [reflexivity|].
  split; [vm_compute; reflexivity|]. split; [vm_compute; reflexivity|].
  eexists. split; [vm_compute; reflexivity|].
  split; [reflexivity|]. split; [reflexivity|]. split; [reflexivity|].
  apply (bool_decide_unpack _). vm_compute. exact I.
Qed.

Lemma operations_rearrange_witness :
  rearranges [3; 1; 4; 1; 5; 9; 2; 6] 0 8
    (makeHeap Z.ltb 8 [3; 1; 4; 1; 5; 9; 2; 6] 0 8) ∧
  rearranges [3; 1; 4; 1; 5; 9; 2; 6] 0 8
    (popHeap Z.ltb 8 [3; 1; 4; 1; 5; 9; 2; 6] 0 8) ∧
  rearranges [3; 1; 4; 1; 5; 9; 2; 6] 0 8
    (changeHeap Z.ltb 8 [3; 1; 4; 1; 5; 9; 2; 6] 0 (8 - 0) 3).
Proof.
  destruct (operations_rearrange Z.ltb 8 [3; 1; 4; 1; 5; 9; 2; 6] 0 8)
    as (Hmake & _ & Hpp & Hpos); [range_tac | simpl; lia |].
  split; [exact Hmake|]. split.
  - destruct Hpp as [_ Hpop]; [lia | exact Hpop].
  - destruct (Hpos 3) as [_ Hchange]; [lia | exact Hchange].
Defined.

Lemma makeHeap_then_sortHeap_sorts_witness :
  ∃ l1 l2, makeHeap Z.ltb 8 [3; 1; 4; 1; 5; 9; 2; 6] 0 8 = Ok l1 ∧
           sortHeap Z.ltb 8 l1 0 8 = Ok l2 ∧
           ascending Z.ltb (region l2 0 8) ∧
           region l2 0 8 ≡ₚ region [3; 1; 4; 1; 5; 9; 2; 6] 0 8 ∧
           (∀ j, ¬ (0 ≤ j < 8) → rd l2 j = rd [3; 1; 4; 1; 5; 9; 2; 6] j).
Proof.
  apply (makeHeap_then_sortHeap_sorts Z.ltb 8 [3; 1; 4; 1; 5; 9; 2; 6] 0 8);
    [apply Zltb_swo | range_tac | simpl; lia].
Defined.

Lemma sortHeap_is_repeated_popHeap_witness :
  ∃ l', sortHeap Z.ltb 8 [3; 1; 4; 1; 5; 9; 2; 6] 0 8 = Ok l' ∧
        pop_n_times Z.ltb 8 (Z.to_nat (8 - 0)) [3; 1; 4; 1; 5; 9; 2; 6] 0 8
          = Ok (l', rev (region l' 0 8)).
Proof.
  apply (sortHeap_is_repeated_popHeap Z.ltb 8 [3; 1; 4; 1; 5; 9; 2; 6] 0 8);
    [range_tac | simpl; lia].
Defined.

Lemma makeHeap_front_is_maximum_witness :
  ∃ l' r, makeHeap Z.ltb 8 [3; 1; 4; 1; 5; 9; 2; 6] 0 8 = Ok l' ∧
          rd l' 0 = Ok r ∧ r ∈ region [3; 1; 4; 1; 5; 9; 2; 6] 0 8 ∧
          ∀ x, x ∈ region [3; 1; 4; 1; 5; 9; 2; 6] 0 8 → Z.ltb r x = false.
Proof.
  apply (makeHeap_front_is_maximum Z.ltb 8 [3; 1; 4; 1; 5; 9; 2; 6] 0 8);
    [apply Zltb_swo | range_tac | lia | simpl; lia].
Defined.

Lemma popHeap_replace_pushHeap_witness :
  heap_inv Z.ltb [9; 6; 4; 1; 5; 3; 2; 1] 0 8 ∧
  ∃ l1 l2 l3 r,
    rd [9; 6; 4; 1; 5; 3; 2; 1] 0 = Ok r ∧
    popHeap Z.ltb 8 [9; 6; 4; 1; 5; 3; 2; 1] 0 8 = Ok l1 ∧
    wr l1 (8 - 1) 7 = Ok l2 ∧
    pushHeap Z.ltb 8 l2 0 8 = Ok l3 ∧
    heap_inv Z.ltb l3 0 8 ∧
    region l3 0 8 ++ [r] ≡ₚ region [9; 6; 4; 1; 5; 3; 2; 1] 0 8 ++ [7].
Proof.
  assert (H : heap_inv Z.ltb [9; 6; 4; 1; 5; 3; 2; 1] 0 8) by heap_tac 8%nat.
  split; [exact H|].
  apply (popHeap_replace_pushHeap Z.ltb 8 [9; 6; 4; 1; 5; 3; 2; 1] 0 8 7);
    [apply Zltb_swo | range_tac | lia | exact H | simpl; lia].
Defined.

Lemma isHeap_until_longest_prefix_witness :
  ∃ r, isHeap_until Z.ltb 7 [9; 6; 5; 4; 7; 2; 8] 0 7 = Ok r ∧ 0 ≤ r ≤ 7 ∧
       (∀ m, 0 ≤ m ≤ 7 → (heap_inv Z.ltb [9; 6; 5; 4; 7; 2; 8] 0 m ↔ m ≤ r)) ∧
       ∃ b, isHeap Z.ltb 7 [9; 6; 5; 4; 7; 2; 8] 0 7 = Ok b ∧
            (b = true ↔ heap_inv Z.ltb [9; 6; 5; 4; 7; 2; 8] 0 7).
Proof.
  apply (isHeap_until_longest_prefix Z.ltb 7 [9; 6; 5; 4; 7; 2; 8] 0 7);
    [range_tac | simpl; lia].
Defined.

Lemma isHeap_alt_skips_last_witness :
  isHeap_alt Z.ltb 2 [1; 2] 0 2 = isHeap Z.ltb 2 [1; 2] 0 (2 - 1) ∧
  isHeap_alt Z.ltb 3 [9; 6; 5] 0 3 = isHeap Z.ltb 3 [9; 6; 5] 0 3.
Proof.
  split.
  - destruct (isHeap_alt_skips_last Z.ltb 2 [1; 2] 0 2) as [_ Heven];
      [range_tac | simpl; lia |].
    apply Heven. reflexivity.
  - destruct (isHeap_alt_skips_last Z.ltb 3 [9; 6; 5] 0 3) as [Hodd _];
      [range_tac | simpl; lia |].
    apply Hodd. reflexivity.
Defined.

(** The comment's alternative accepts [1; 2], which is not a heap. *)
Example isHeap_alt_disagrees :
  isHeap_alt Z.ltb 2 [1; 2] 0 2 = Ok true ∧ isHeap Z.ltb 2 [1; 2] 0 2 = Ok false.
Proof. vm_compute. auto. Qed.

Lemma operations_leave_in_place_witness :
  heap_inv Z.ltb [9; 6; 5] 0 3 ∧
  pushHeap Z.ltb 0 [9; 6; 5] 0 3 = Ok [9; 6; 5] ∧
  removeHeap Z.ltb 0 [9; 6; 5] 0 (3 - 0) (3 - 0 - 1) = Ok [9; 6; 5].
Proof.
  assert (H : heap_inv Z.ltb [9; 6; 5] 0 3) by heap_tac 3%nat.
  split; [exact H|].
  destruct (operations_leave_in_place Z.ltb 0 [9; 6; 5] 0 3)
    as (_ & Hpush & Hremove); [range_tac | lia |].
  split; [|apply Hremove; exact H].
  apply Hpush. right. apply H; lia.
Defined.

Lemma empty_range_behaviour_witness :
  makeHeap Z.ltb 0 [1; 2; 3; 4] 2 2 = Ok [1; 2; 3; 4] ∧
  sortHeap Z.ltb 0 [1; 2; 3; 4] 2 2 = Ok [1; 2; 3; 4] ∧
  pushHeap Z.ltb 0 [1; 2; 3; 4] 2 2 = Ok [1; 2; 3; 4] ∧
  popHeap Z.ltb 0 [1; 2; 3; 4] 2 2 = Ok [1; 3; 2; 4].
Proof.
  destruct (empty_range_behaviour Z.ltb 0 [1; 2; 3; 4] 2)
    as (Hmake & Hsort & Hinside & _); [simpl; lia|].
  split; [exact Hmake|]. split; [exact Hsort|].
  destruct (Hinside 2) as [Hpush Hpop]; [reflexivity|].
  split; [exact Hpush|]. apply (Hpop 3). reflexivity.
Defined.


Lemma Zltb_total (a b : Z) : Z.ltb a b = false → Z.ltb b a = false → a = b.
Proof. rewrite !Z.ltb_ge. lia. Qed.

Lemma makeHeap_idempotent_witness :
  ∃ l1, makeHeap Z.ltb 8 [3; 1; 4; 1; 5; 9; 2; 6] 0 8 = Ok l1 ∧
        makeHeap Z.ltb 8 l1 0 8 = Ok l1.
Proof.
  apply (makeHeap_idempotent Z.ltb 8 [3; 1; 4; 1; 5; 9; 2; 6] 0 8);
    [apply Zltb_swo | apply Zltb_total | range_tac | simpl; lia].
Defined.

(** Without totality a heap may come back changed: with pairs compared
    on their first component, [makeHeap] exchanges the two elements of
    the heap [(5,1); (5,2)]. *)
Example makeHeap_moves_equal_priorities :
  makeHeap (λ a b : Z * Z, Z.ltb (fst a) (fst b)) 2 [(5, 1); (5, 2)] 0 2
  = Ok [(5, 2); (5, 1)].
Proof. vm_compute. reflexivity. Qed.
